(** * MonacoCodeBlockView: the code-block node view of the Notion-style editor

    A shallow embedding of
    [src/renderer/src/components/NotionEditor/extensions/MonacoCodeBlock/MonacoCodeBlockView.tsx].

    The component is glue between two libraries: the document editor
    (Tiptap over ProseMirror) and the Monaco code editor.  Its handlers are
    embedded as computations in a small monad that threads the mutable state
    the handlers touch (the editor document, the two refs, the Monaco
    instance), records every call into a library as an [Effect], and carries
    JavaScript exceptions.  What the libraries answer to the component's
    queries ([doc.nodeAt], [doc.content.size], [node.nodeSize], the Monaco
    model's line queries) is not defined here: it is an interface, and every
    theorem holds for each implementation of it. *)

From Stdlib Require Import ZArith QArith List String Bool Lia.
From stdpp Require Import base option list strings gmap.

Open Scope Z_scope.

(** ** JavaScript values *)

(** The values an attribute of a node can hold.  Numbers are restricted to
    the integers and NaN, which is all that truthiness needs. *)
Inductive JsVal : Type :=
| JUndefined
| JNull
| JBool (b : bool)
| JNum (z : Z)
| JNaN
| JStr (s : string).

(** [!!v] of JavaScript. *)
Definition truthy (v : JsVal) : bool :=
  match v with
  | JUndefined | JNull | JNaN => false
  | JBool b => b
  | JNum z => negb (z =? 0)
  | JStr s => negb (String.eqb s "")
  end.

(** [a || b] *)
Definition js_or (a b : JsVal) : JsVal := if truthy a then a else b.

(** A document position as the handlers compute with it: [getPos()] may be
    [undefined], and [undefined + n] is [NaN]. *)
Inductive JsPos : Type :=
| PUndefined
| PNaN
| PNum (z : Z).

(** [p + n] for a number [n] *)
Definition js_add (p : JsPos) (n : Z) : JsPos :=
  match p with
  | PNum z => PNum (z + n)
  | PUndefined | PNaN => PNaN
  end.

Inductive JsError : Type :=
| TypeError (msg : string)
| RangeError (msg : string)
| OtherError (msg : string).

Inductive Outcome (A : Type) : Type :=
| Ok (a : A)
| Throw (e : JsError).
Arguments Ok {A} a.
Arguments Throw {A} e.

(** ** Document nodes *)

Record Mark : Type := mkMark {
  mark_type : string;
  mark_attrs : gmap string JsVal
}.

(** A ProseMirror node: its type (named, as [node.type.name]), attributes,
    children, marks and, for a text node, its text. *)
#[warnings="-register-all"]
Inductive PMNode : Type := mkNode {
  type_name : string;
  attrs : gmap string JsVal;
  content : list PMNode;
  marks : list Mark;
  text : option string
}.

(** [schema.nodes[name].create(attrs, content, marks)]: a node of the type
    of that name with those attributes, children and marks.  The component
    only passes the attributes of an existing node of the same type, which
    the library keeps as they are.  The library refuses to create a node of
    the text type this way; the type the component passes is that of the
    node at [getPos()], a block. *)
Definition schema_create (name : string) (a : gmap string JsVal)
    (c : list PMNode) (m : list Mark) : PMNode :=
  mkNode name a c m None.

(** [schema.nodeFromJSON({ type: 'text', text: value })] *)
Definition schema_text (value : string) : PMNode :=
  mkNode "text" ∅ [] [] (Some value).

(** [editor.schema.nodes.paragraph.create()] *)
Definition paragraph_create : PMNode := schema_create "paragraph" ∅ [] [].

(** [{ ...o }] : a fresh object with the same own properties. *)
Definition spread (o : gmap string JsVal) : gmap string JsVal := o.

(** [o.k], [undefined] when the property is absent. *)
Definition prop (o : gmap string JsVal) (k : string) : JsVal :=
  default JUndefined (o !! k).

(** The steps the component adds to a transaction. *)
Inductive Step : Type :=
| StepInsert (pos : JsPos) (n : PMNode)
| StepDelete (from to : JsPos)
| StepReplaceWith (from to : JsPos) (n : PMNode).

Definition Transaction : Type := list Step.

(** ** The document editor's interface *)

Class ProseMirror : Type := {
  (** [editor.state.doc] *)
  Doc : Type;
  (** [doc.nodeAt(pos)]: the node directly after [pos], [null] when there
      is none; it may raise. *)
  nodeAt : Doc -> JsPos -> Outcome (option PMNode);
  (** [doc.content.size] *)
  content_size : Doc -> Z;
  (** [node.nodeSize] *)
  nodeSize : PMNode -> Z;
  (** [node.textContent] *)
  textContent : PMNode -> string;
  (** the document of the state a dispatched transaction produces *)
  applyTransaction : Doc -> Transaction -> Doc
}.

(** ** The Monaco editor *)

Record Position : Type := mkPosition {
  lineNumber : Z;
  column : Z
}.

(** [monaco.editor.ITextModel], by the two queries the component makes. *)
Record ITextModel : Type := mkModel {
  getLineCount : Z;
  getLineMaxColumn : Z -> Z
}.

(** [monaco.editor.IStandaloneCodeEditor] *)
Record MonacoEditor : Type := mkMonaco {
  getModel : option ITextModel;
  getPosition : option Position
}.

Inductive KeyCode : Type :=
| LeftArrow
| UpArrow
| RightArrow
| DownArrow
| OtherKey (code : Z).

Definition keyCode_eqb (a b : KeyCode) : bool :=
  match a, b with
  | LeftArrow, LeftArrow | UpArrow, UpArrow
  | RightArrow, RightArrow | DownArrow, DownArrow => true
  | OtherKey x, OtherKey y => x =? y
  | _, _ => false
  end.

(** ** Effects *)

(** The callbacks the component hands to [setTimeout]. *)
Inductive Callback : Type :=
| ResetIsUpdating      (* () => { isUpdatingRef.current = false } *)
| FocusMonaco.         (* () => { editorInstance.focus() } *)

Inductive Effect : Type :=
| PreventDefault
| StopPropagation
| Dispatch (tr : Transaction)                  (* editor.view.dispatch(tr) *)
| Focus (pos : Z)                              (* editor.commands.focus(pos) *)
| SetPosition (p : Position)                   (* monacoInstance.setPosition *)
| MonacoFocus                                  (* monacoInstance.focus() *)
| MonacoSetValue (v : string)                  (* monacoInstance.setValue *)
| RegisterKeyDown                              (* editorInstance.onKeyDown(...) *)
| ConsoleError (msg : string) (e : option JsError)
| SetTimeout (cb : Callback) (delay : Z)
| UpdateAttributes (a : gmap string JsVal).    (* updateAttributes({...}) *)

Definition is_dispatch (e : Effect) : bool :=
  match e with Dispatch _ => true | _ => false end.

Definition is_focus (e : Effect) : bool :=
  match e with Focus _ => true | _ => false end.

Definition is_timer (e : Effect) : bool :=
  match e with SetTimeout _ _ => true | _ => false end.

(** No transaction is dispatched. *)
Definition no_dispatch (l : list Effect) : Prop :=
  Forall (fun e => is_dispatch e = false) l.

(** ** The monad of the handlers: state, effect log, exceptions *)

Definition Eff (S A : Type) : Type := S -> S * list Effect * Outcome A.

Global Instance Eff_ret {S} : MRet (Eff S) :=
  fun A a s => (s, [], Ok a).

Global Instance Eff_bind {S} : MBind (Eff S) :=
  fun A B f m s =>
    match m s with
    | (s1, l1, Ok a) =>
        match f a s1 with
        | (s2, l2, r) => (s2, l1 ++ l2, r)
        end
    | (s1, l1, Throw e) => (s1, l1, Throw e)
    end.

Definition emit {S} (e : Effect) : Eff S unit :=
  fun s => (s, [e], Ok tt).

Definition gets {S A} (f : S -> A) : Eff S A :=
  fun s => (s, [], Ok (f s)).

Definition modify {S} (f : S -> S) : Eff S unit :=
  fun s => (f s, [], Ok tt).

Definition throw {S A} (e : JsError) : Eff S A :=
  fun s => (s, [], Throw e).

Definition lift_outcome {S A} (o : Outcome A) : Eff S A :=
  fun s => (s, [], o).

(** [try { body } catch (error) { handler } finally { fin }] *)
Definition try_catch_finally {S} (body : Eff S unit)
    (handler : JsError -> Eff S unit) (fin : Eff S unit) : Eff S unit :=
  fun s =>
    let '(s2, l2, r2) :=
      match body s with
      | (s1, l1, Ok tt) => (s1, l1, Ok tt)
      | (s1, l1, Throw e) =>
          match handler e s1 with
          | (s2, l2, r) => (s2, l1 ++ l2, r)
          end
      end in
    match fin s2 with
    | (s3, l3, Ok tt) => (s3, l2 ++ l3, r2)
    | (s3, l3, Throw e) => (s3, l2 ++ l3, Throw e)
    end.

Definition state_of {S A} (r : S * list Effect * Outcome A) : S := r.1.1.
Definition effects_of {S A} (r : S * list Effect * Outcome A) : list Effect := r.1.2.
Definition outcome_of {S A} (r : S * list Effect * Outcome A) : Outcome A := r.2.

(** ** Languages *)

Inductive ProgrammingLanguage : Type :=
| javascript | typescript | html | css | json | python | java
| csharp | php | ruby | go | rust | shell.

(** The string each member of the union type is. *)
Definition language_name (l : ProgrammingLanguage) : string :=
  match l with
  | javascript => "javascript" | typescript => "typescript"
  | html => "html" | css => "css" | json => "json" | python => "python"
  | java => "java" | csharp => "csharp" | php => "php" | ruby => "ruby"
  | go => "go" | rust => "rust" | shell => "shell"
  end.

Definition languages : list ProgrammingLanguage :=
  [javascript; typescript; html; css; json; python; java;
   csharp; php; ruby; go; rust; shell].

(** [<option key={lang} value={lang}>{lang}</option>] *)
Record OptionElement : Type := mkOption {
  option_key : string;
  option_value : string;
  option_label : string
}.

(** What the component renders, as far as it depends on the props. *)
Record View : Type := mkView {
  select_value : JsVal;
  select_options : list OptionElement;
  editor_defaultLanguage : JsVal;
  editor_language : JsVal;
  editor_value : string;
  editor_theme : string
}.

Global Instance JsVal_eq_dec : EqDecision JsVal.
Proof. solve_decision. Defined.

(** The option a controlled [<select value={v}>] shows: the first one whose
    value is [v]; when no option has that value, the browser shows the
    first option of the list. *)
Definition shown_option (v : View) : option OptionElement :=
  match
    List.find (fun o => bool_decide (JStr (option_value o) = select_value v))
      (select_options v)
  with
  | Some o => Some o
  | None => head (select_options v)
  end.

(** ** The component *)

(** [getPos] as the node view receives it: not a function at all, or a
    function that returns a position or [undefined]. *)
Inductive GetPos : Type :=
| NotAFunction
| GetPosFn (result : option Z).

Definition pos_result (r : option Z) : JsPos :=
  match r with
  | Some z => PNum z
  | None => PUndefined
  end.

(** The props of the node view the component reads. *)
Record Props : Type := mkProps {
  node : PMNode;
  getPos : GetPos;
  selected : bool
}.

Section Component.
Context {PM : ProseMirror}.

(** The mutable state around the component: the editor's current document
    and the component's refs. *)
Record World : Type := mkWorld {
  doc : Doc;                              (* editor.state.doc *)
  isUpdatingRef : bool;
  initialContentRef : string;
  monacoInstance : option MonacoEditor
}.

Definition set_doc (d : Doc) (w : World) : World :=
  mkWorld d (isUpdatingRef w) (initialContentRef w) (monacoInstance w).
Definition set_isUpdatingRef (b : bool) (w : World) : World :=
  mkWorld (doc w) b (initialContentRef w) (monacoInstance w).
Definition set_initialContentRef (v : string) (w : World) : World :=
  mkWorld (doc w) (isUpdatingRef w) v (monacoInstance w).
Definition set_monacoInstance (m : option MonacoEditor) (w : World) : World :=
  mkWorld (doc w) (isUpdatingRef w) (initialContentRef w) m.

(** [editor.view.dispatch(tr)] *)
Definition dispatch (tr : Transaction) : Eff World unit :=
  emit (Dispatch tr);;
  modify (fun w => set_doc (applyTransaction (doc w) tr) w).

(** [editor.commands.focus(pos)] *)
Definition focus (pos : Z) : Eff World unit := emit (Focus pos).

(** [monacoInstance.current?.setPosition(p)] *)
Definition monaco_setPosition (p : Position) : Eff World unit :=
  m ← gets monacoInstance;
  match m with
  | Some ed =>
      emit (SetPosition p);;
      modify (set_monacoInstance (Some (mkMonaco (getModel ed) (Some p))))
  | None => mret tt
  end.

(** [getPos()] where the source calls it unguarded: calling what is not a
    function raises a TypeError. *)
Definition call_getPos (g : GetPos) : Eff World JsPos :=
  match g with
  | GetPosFn r => mret (pos_result r)
  | NotAFunction => throw (TypeError "getPos is not a function")
  end.

(** [const language = node.attrs.language || 'javascript'] *)
Definition language (p : Props) : JsVal :=
  js_or (prop (attrs (node p)) "language") (JStr "javascript").

Definition insertNodeBefore (p : Props) : Eff World unit :=
  match getPos p with
  | NotAFunction => mret tt
  | GetPosFn None => mret tt
  | GetPosFn (Some pos) =>
      let newNode := paragraph_create in
      dispatch [StepInsert (PNum pos) newNode];;
      focus pos
  end.

(** [insertNodeAfter], called from the render that made it (the click on
    the wrapper does so): its [node] is the node the document has at
    [getPos()], so the end position lies in the document. *)
Definition insertNodeAfter (p : Props) : Eff World unit :=
  match getPos p with
  | NotAFunction => mret tt
  | GetPosFn None => mret tt
  | GetPosFn (Some pos) =>
      let endPos := pos + nodeSize (node p) in
      let newNode := paragraph_create in
      dispatch [StepInsert (PNum endPos) newNode];;
      focus (endPos + 1)
  end.

(** [tr.insert(pos, node)] on a transaction of the current state:
    ProseMirror resolves [pos] in the document and raises a RangeError for
    a position outside of it. *)
Definition tr_insert (pos : Z) (n : PMNode) : Eff World Transaction :=
  d ← gets doc;
  if (pos <? 0) || (content_size d <? pos)
  then throw (RangeError "Position out of range")
  else mret [StepInsert (PNum pos) n].

(** [insertNodeAfter] as the key listener calls it.  The listener is
    registered once, by [handleEditorMount], and keeps the [insertNodeAfter]
    and the [node] of the render in which the editor was mounted, while
    [getPos()] answers for the document of the moment.  The size of that
    node need not be the size of the block any more, so the end position
    can lie outside of the document, where [tr.insert] raises. *)
Definition insertNodeAfter_mounted (p : Props) : Eff World unit :=
  match getPos p with
  | NotAFunction => mret tt
  | GetPosFn None => mret tt
  | GetPosFn (Some pos) =>
      let endPos := pos + nodeSize (node p) in
      let newNode := paragraph_create in
      tr ← tr_insert endPos newNode;
      dispatch tr;;
      focus (endPos + 1)
  end.

Definition handleDelete (p : Props) : Eff World unit :=
  match getPos p with
  | GetPosFn r =>
      let pos := pos_result r in
      d ← gets doc;
      nodeAtPos ← lift_outcome (nodeAt d pos);
      match nodeAtPos with
      | Some n => dispatch [StepDelete pos (js_add pos (nodeSize n))]
      | None => mret tt
      end
  | NotAFunction => mret tt
  end.

Definition isFirstNode (p : Props) : bool :=
  match getPos p with
  | NotAFunction => false
  | GetPosFn None => false
  | GetPosFn (Some pos) => pos =? 0
  end.

(** [!value] for [value : string | undefined] *)
Definition value_falsy (value : option string) : bool :=
  match value with
  | None => true
  | Some s => String.eqb s ""
  end.

(** The function handed to [debounce]: the body of [handleEditorChange]. *)
Definition updateContent (p : Props) (value : option string) : Eff World unit :=
  updating ← gets isUpdatingRef;
  if value_falsy value || updating then mret tt
  else
    try_catch_finally
      (modify (set_isUpdatingRef true);;
       pos ← call_getPos (getPos p);
       d ← gets doc;
       originalNode ← lift_outcome (nodeAt d pos);
       match originalNode, value with
       | None, _ => emit (ConsoleError "Could not find original node" None)
       | Some originalNode, Some value =>
           let newNode :=
             schema_create (type_name originalNode)
               (spread (attrs originalNode))
               [schema_text value]
               (marks originalNode) in
           dispatch [StepReplaceWith pos (js_add pos (nodeSize originalNode)) newNode];;
           modify (set_initialContentRef value)
       | Some _, None => mret tt   (* excluded by the guard above *)
       end)
      (fun error => emit (ConsoleError "Error updating code block:" (Some error)))
      (emit (SetTimeout ResetIsUpdating 0)).

(** The cursor test of the DownArrow and RightArrow branches. *)
Definition atEndOfLastLine (model : ITextModel) (position : Position) : bool :=
  let lastLineNumber := getLineCount model in
  let lastLineMaxColumn := getLineMaxColumn model lastLineNumber in
  (lineNumber position =? lastLineNumber) && (column position =? lastLineMaxColumn).

(** The cursor test of the UpArrow and LeftArrow branches. *)
Definition atStartOfFirstLine (position : Position) : bool :=
  (lineNumber position =? 1) && (column position =? 1).

Definition onDownArrow (p : Props) (editorInstance : MonacoEditor) : Eff World unit :=
  match getModel editorInstance, getPosition editorInstance with
  | Some model, Some position =>
      if atEndOfLastLine model position then
        emit PreventDefault;;
        emit StopPropagation;;
        match getPos p with
        | GetPosFn (Some pos) =>
            let endPos := pos + nodeSize (node p) in
            d ← gets doc;
            let docSize := content_size d in
            if endPos >=? docSize then insertNodeAfter_mounted p
            else
              monaco_setPosition (mkPosition 1 1);;
              focus endPos
        | _ => mret tt
        end
      else mret tt
  | _, _ => mret tt
  end.

(** The UpArrow and the LeftArrow branches have the same body. *)
Definition onUpOrLeftArrow (p : Props) (editorInstance : MonacoEditor) : Eff World unit :=
  match getModel editorInstance, getPosition editorInstance with
  | Some model, Some position =>
      if atStartOfFirstLine position then
        emit PreventDefault;;
        emit StopPropagation;;
        if isFirstNode p then insertNodeBefore p
        else
          match getPos p with
          | GetPosFn r =>
              monaco_setPosition (mkPosition 1 1);;
              match r with
              | Some pos => focus pos
              | None => mret tt
              end
          | NotAFunction => mret tt
          end
      else mret tt
  | _, _ => mret tt
  end.

Definition onUpArrow := onUpOrLeftArrow.
Definition onLeftArrow := onUpOrLeftArrow.

Definition onRightArrow (p : Props) (editorInstance : MonacoEditor) : Eff World unit :=
  match getModel editorInstance, getPosition editorInstance with
  | Some model, Some position =>
      if atEndOfLastLine model position then
        emit PreventDefault;;
        emit StopPropagation;;
        match getPos p with
        | GetPosFn (Some pos) =>
            monaco_setPosition (mkPosition 1 1);;
            focus (pos + nodeSize (node p))
        | _ => mret tt
        end
      else mret tt
  | _, _ => mret tt
  end.

(** One branch of the listener: [if (e.keyCode === k) { body }].  The
    branch queries the editor instance when it runs. *)
Definition on_key (e k : KeyCode) (body : MonacoEditor -> Eff World unit)
    : Eff World unit :=
  if keyCode_eqb e k then
    ed ← gets monacoInstance;
    match ed with
    | Some editorInstance => body editorInstance
    | None => mret tt
    end
  else mret tt.

(** The listener registered with [editorInstance.onKeyDown].  The instance
    it closes over is the one [handleEditorMount] stored in
    [monacoInstance.current]; the props it closes over are those of the
    render in which the editor was mounted. *)
Definition onKeyDown (p : Props) (e : KeyCode) : Eff World unit :=
  on_key e DownArrow (onDownArrow p);;
  on_key e UpArrow (onUpArrow p);;
  on_key e LeftArrow (onLeftArrow p);;
  on_key e RightArrow (onRightArrow p).

Definition handleEditorMount (p : Props) (editorInstance : MonacoEditor)
    : Eff World unit :=
  modify (set_monacoInstance (Some editorInstance));;
  emit RegisterKeyDown;;
  if isFirstNode p then emit (SetTimeout FocusMonaco 100) else mret tt.

(** [updateAttributes({ language: e.target.value })] *)
Definition onLanguageChange (target_value : string) : Eff World unit :=
  emit (UpdateAttributes {[ "language"%string := JStr target_value ]}).

(** The effect that follows [node.textContent]: a change of the document
    made elsewhere is pushed into Monaco. *)
Definition syncFromNode (p : Props) : Eff World unit :=
  m ← gets monacoInstance;
  updating ← gets isUpdatingRef;
  initial ← gets initialContentRef;
  match m with
  | Some _ =>
      if negb updating && negb (String.eqb (textContent (node p)) initial) then
        modify (set_isUpdatingRef true);;
        emit (MonacoSetValue (textContent (node p)));;
        modify (set_initialContentRef (textContent (node p)));;
        emit (SetTimeout ResetIsUpdating 0)
      else mret tt
  | None => mret tt
  end.

Definition render (p : Props) : View :=
  {| select_value := language p;
     select_options :=
       map (fun lang => 
              mkOption (language_name lang) (language_name lang) (language_name lang))
           languages;
     editor_defaultLanguage := language p;
     editor_language := language p;
     editor_value := textContent (node p);
     editor_theme := "vs-dark" |}.

(** What Tiptap's [updateAttributes] does to the node's attributes: the
    given ones override, the others stay. *)
Definition merged_attrs (n : PMNode) (a : gmap string JsVal) : gmap string JsVal :=
  a ∪ attrs n.

(** Run a handler for its effect on the world, keeping the log. *)
Definition exec (m : Eff World unit) (wl : World * list Effect) : World * list Effect :=
  let r := m wl.1 in (state_of r, wl.2 ++ effects_of r).

End Component.

(** ** [debounce] *)

Section Debounce.
Variables A St : Type.
(** [func], as its effect on the state [St] it works on, and [wait], in
    milliseconds. *)
Variable func : A -> St -> St.
Variable wait : Z.

(** A pending [setTimeout(later, wait)]: the handle it returned, the time
    it is due, and the [args] its [later] closes over. *)
Record Timer : Type := mkTimer {
  timer_id : Z;
  due : Z;
  timer_args : A
}.

(** The host of one debounced function: the clock (in milliseconds), the
    pending timers in the order they were set, the next handle, the
    closure's [timeout] variable, the state [func] works on and the
    invocations of [func] so far, with their time. *)
Record Host : Type := mkHost {
  now : Z;
  timers : list Timer;
  next_id : Z;
  timeout : option Z;
  target : St;
  invocations : list (Z * A)
}.

(** Handles are positive integers, counted from 1. *)
Definition fresh_host (t0 : Z) (st : St) : Host :=
  mkHost t0 [] 1 None st [].

Definition clearTimeout (id : Z) (h : Host) : Host :=
  mkHost (now h) (filter (fun t => timer_id t ≠ id) (timers h))
    (next_id h) (timeout h) (target h) (invocations h).

(** [setTimeout(later, wait)], returning the handle.  The host keeps the
    delay as a 32-bit integer; the due time here is the host's for
    [wait < 2^31]. *)
Definition setTimeout_later (args : A) (h : Host) : Z * Host :=
  let id := next_id h in
  (id, mkHost (now h)
         (timers h ++ [mkTimer id (now h + Z.max 0 wait) args])
         (id + 1) (timeout h) (target h) (invocations h)).

(** [const later = () => { timeout = null; func(...args) }] *)
Definition later (args : A) (h : Host) : Host :=
  mkHost (now h) (timers h) (next_id h) None
    (func args (target h)) (invocations h ++ [(now h, args)]).

(** [if (timeout)] : [null] and the handle 0 are falsy. *)
Definition handle_truthy (t : option Z) : option Z :=
  match t with
  | Some id => if id =? 0 then None else Some id
  | None => None
  end.

Definition executedFunction (args : A) (h : Host) : Host :=
  let h1 :=
    match handle_truthy (timeout h) with
    | Some id => clearTimeout id h
    | None => h
    end in
  let '(id, h2) := setTimeout_later args h1 in
  mkHost (now h2) (timers h2) (next_id h2) (Some id) (target h2) (invocations h2).

(** *** The event loop *)

(** The timer to run next: the earliest due, the first set among equals. *)
Fixpoint earliest (l : list Timer) : option Timer :=
  match l with
  | [] => None
  | x :: l' =>
      match earliest l' with
      | Some y => if due y <? due x then Some y else Some x
      | None => Some x
      end
  end.

(** A timer fires: it leaves the table, the clock is at its due time (or
    later), and its callback runs. *)
Definition fire (tm : Timer) (h : Host) : Host :=
  later (timer_args tm)
    (mkHost (Z.max (now h) (due tm))
       (filter (fun t => timer_id t ≠ timer_id tm) (timers h))
       (next_id h) (timeout h) (target h) (invocations h)).

Fixpoint run_due (fuel : nat) (t : Z) (h : Host) : Host :=
  match fuel with
  | O => h
  | S fuel' =>
      match earliest (timers h) with
      | Some tm => if due tm <=? t then run_due fuel' t (fire tm h) else h
      | None => h
      end
  end.

(** Time passes until [t]: every timer due by then fires, in order.  A
    callback sets no timer, so one round per pending timer is enough. *)
Definition advance (t : Z) (h : Host) : Host :=
  let h' := run_due (length (timers h)) t h in
  mkHost (Z.max (now h') t) (timers h') (next_id h') (timeout h')
    (target h') (invocations h').

(** A call of the debounced function at time [t]: the timers due by [t]
    have run.  With a positive [wait] a timer is never due in the
    millisecond it was set in. *)
Definition call_at (c : Z * A) (h : Host) : Host :=
  executedFunction c.2 (advance c.1 h).

Definition run_calls (cs : list (Z * A)) (h : Host) : Host :=
  fold_left (fun h c => call_at c h) cs h.

(** Every state the host goes through during [run_calls]: before and
    after each call, and in the middle of a call, between [clearTimeout]
    and [setTimeout]. *)
Fixpoint history (cs : list (Z * A)) (h : Host) : list Host :=
  match cs with
  | [] => [h]
  | c :: cs' =>
      let h1 := advance c.1 h in
      let h2 :=
        match handle_truthy (timeout h1) with
        | Some id => clearTimeout id h1
        | None => h1
        end in
      h :: h1 :: h2 :: history cs' (call_at c h)
  end.

(** Each call comes at or after the previous one, and less than [wait]
    after it. *)
Fixpoint spaced (prev : Z) (cs : list (Z * A)) : Prop :=
  match cs with
  | [] => True
  | c :: cs' => prev <= c.1 < prev + wait /\ spaced c.1 cs'
  end.

(** One call is pending: the one made at [t] with [a]; nothing has run. *)
Definition armed (h : Host) (t : Z) (a : A) (st : St) : Prop :=
  exists id,
    timers h = [mkTimer id (t + wait) a] /\
    timeout h = Some id /\ id <> 0 /\ 0 < next_id h /\
    now h = t /\ invocations h = [] /\ target h = st.

Definition at_most_one_pending (h : Host) : Prop :=
  (length (timers h) <= 1)%nat.

End Debounce.

Arguments mkTimer {A} _ _ _.
Arguments timer_id {A} _.
Arguments due {A} _.
Arguments timer_args {A} _.
Arguments now {A St} _.
Arguments timers {A St} _.
Arguments next_id {A St} _.
Arguments timeout {A St} _.
Arguments target {A St} _.
Arguments invocations {A St} _.
Arguments fresh_host {A St} _ _.
Arguments clearTimeout {A St} _ _.
Arguments setTimeout_later {A St} _ _ _.
Arguments later {A St} _ _ _.
Arguments executedFunction {A St} _ _ _.
Arguments earliest {A} _.
Arguments fire {A St} _ _ _.
Arguments run_due {A St} _ _ _ _.
Arguments advance {A St} _ _ _.
Arguments call_at {A St} _ _ _ _.
Arguments run_calls {A St} _ _ _ _.
Arguments history {A St} _ _ _ _.
Arguments spaced {A} _ _ _.
Arguments armed {A St} _ _ _ _ _.
Arguments at_most_one_pending {A St} _.

(** The function the component debounces, [(value) => { ... }], as its
    effect on the world and the effect log. *)
Definition change_handler {PM : ProseMirror} (p : Props)
    (value : option string) : World * list Effect -> World * list Effect :=
  exec (updateContent p value).

(** ** The rest of the component *)

(** A click on the wrapper, by what the handler reads of it: whether the
    target is the wrapper element itself, the pointer's [clientY], and the
    bottom of the rectangle of the [.monaco-editor] element, when there is
    one.  Coordinates are rationals. *)
Record ClickEvent : Type := mkClick {
  target_is_wrapper : bool;
  clientY : Q;
  editorRect_bottom : option Q
}.

Section ComponentRest.
Context {PM : ProseMirror}.

(** [useImperativeHandle(ref, () => ({ focus }))]: the [focus] method. *)
Definition focus_handle : Eff World unit :=
  m ← gets monacoInstance;
  match m with
  | Some _ => emit MonacoFocus
  | None => mret tt
  end.

(** The effect on [selected]: [if (selected && monacoInstance.current)]. *)
Definition onSelectedChange (p : Props) : Eff World unit :=
  m ← gets monacoInstance;
  match selected p, m with
  | true, Some _ => emit MonacoFocus
  | _, _ => mret tt
  end.

(** What a callback handed to [setTimeout] does when its timer fires. *)
Definition run_callback (cb : Callback) : Eff World unit :=
  match cb with
  | ResetIsUpdating => modify (set_isUpdatingRef false)
  | FocusMonaco => emit MonacoFocus
  end.

(** [typeof getPos === 'function'] *)
Definition is_function (g : GetPos) : bool :=
  match g with
  | GetPosFn _ => true
  | NotAFunction => false
  end.

(** [handleWrapperClick]; [wrapperRef] is the bottom of the rectangle of
    [wrapperRef.current], [None] while the ref is empty. *)
Definition handleWrapperClick (p : Props) (wrapperRef : option Q)
    (event : ClickEvent) : Eff World unit :=
  match wrapperRef with
  | Some wrapperRect_bottom =>
      if target_is_wrapper event && is_function (getPos p) then
        match editorRect_bottom event with
        | Some editorRect_bottom =>
            let clickY := clientY event in
            if negb (Qle_bool clickY editorRect_bottom)
               && Qle_bool clickY wrapperRect_bottom
            then insertNodeAfter p
            else mret tt
        | None => mret tt
        end
      else mret tt
  | None => mret tt
  end.

End ComponentRest.

(** ** [debounce], any sequence of calls *)

Section DebounceRuns.
Variables A St : Type.
Variable func : A -> St -> St.
Variable wait : Z.

(** The delay [setTimeout] applies. *)
Definition delay : Z := Z.max 0 wait.

(** The calls of a sequence that get to run: a call runs, [delay] after it
    was made, unless the next call comes before that. *)
Fixpoint trailing (cs : list (Z * A)) : list (Z * A) :=
  match cs with
  | [] => []
  | c :: rest =>
      match rest with
      | [] => [(c.1 + delay, c.2)]
      | c' :: _ =>
          if c.1 + delay <=? c'.1 then (c.1 + delay, c.2) :: trailing rest
          else trailing rest
      end
  end.

(** Times that do not go backwards. *)
Fixpoint ascending (prev : Z) (cs : list (Z * A)) : Prop :=
  match cs with
  | [] => True
  | c :: cs' => prev <= c.1 /\ ascending c.1 cs'
  end.

(** The state [func] has built after the invocations [runs]. *)
Definition apply_runs (runs : list (Z * A)) (st : St) : St :=
  fold_left (fun s r => func r.2 s) runs st.

(** A call is pending, made at [t] with [a], after the invocations [inv]. *)
Definition pending (h : Host A St) (t : Z) (a : A)
    (inv : list (Z * A)) (st : St) : Prop :=
  exists id,
    timers h = [mkTimer id (t + delay) a] /\
    timeout h = Some id /\ id <> 0 /\ 0 < next_id h /\
    now h = t /\ invocations h = inv /\ target h = st.

End DebounceRuns.

Arguments delay _ : clear implicits.
Arguments trailing {A} _ _.
Arguments ascending {A} _ _.
Arguments apply_runs {A St} _ _ _.
Arguments pending {A St} _ _ _ _ _ _.

(** ** [debounce], several debounced functions

    Every call of [debounce] makes a closure with a [timeout] variable of
    its own; the timers of all of them sit in the one table of the host.
    Debounced functions are numbered; a timer records the function whose
    [later] it holds. *)

Section DebounceInstances.
Variables A St : Type.
(** [func] and [wait] of the debounced function of each number. *)
Variable funcs : nat -> A -> St -> St.
Variable waits : nat -> Z.

Record Hosts : Type := mkHosts {
  hnow : Z;
  htimers : list (Timer (nat * A));
  hnext_id : Z;
  htimeout : nat -> option Z;        (* the [timeout] of each closure *)
  htarget : St;
  hinvocations : list (Z * (nat * A))
}.

Definition fresh_hosts (t0 : Z) (st : St) : Hosts :=
  mkHosts t0 [] 1 (fun _ => None) st [].

Definition set_timeout_of (i : nat) (v : option Z) (vars : nat -> option Z)
    : nat -> option Z :=
  fun j => if Nat.eqb j i then v else vars j.

Definition clearTimeout_in (id : Z) (h : Hosts) : Hosts :=
  mkHosts (hnow h) (filter (fun t => timer_id t ≠ id) (htimers h))
    (hnext_id h) (htimeout h) (htarget h) (hinvocations h).

(** The [executedFunction] of the debounced function [i]; the due time of
    its timer is the host's for [waits i < 2^31]. *)
Definition executedFunction_of (i : nat) (args : A) (h : Hosts) : Hosts :=
  let h1 :=
    match handle_truthy (htimeout h i) with
    | Some id => clearTimeout_in id h
    | None => h
    end in
  let id := hnext_id h1 in
  mkHosts (hnow h1)
    (htimers h1 ++ [mkTimer id (hnow h1 + Z.max 0 (waits i)) (i, args)])
    (id + 1) (set_timeout_of i (Some id) (htimeout h1))
    (htarget h1) (hinvocations h1).

(** The [later] of the debounced function [i]. *)
Definition later_of (i : nat) (args : A) (h : Hosts) : Hosts :=
  mkHosts (hnow h) (htimers h) (hnext_id h)
    (set_timeout_of i None (htimeout h))
    (funcs i args (htarget h)) (hinvocations h ++ [(hnow h, (i, args))]).

Definition fire_in (tm : Timer (nat * A)) (h : Hosts) : Hosts :=
  later_of (timer_args tm).1 (timer_args tm).2
    (mkHosts (Z.max (hnow h) (due tm))
       (filter (fun t => timer_id t ≠ timer_id tm) (htimers h))
       (hnext_id h) (htimeout h) (htarget h) (hinvocations h)).

Fixpoint run_due_in (fuel : nat) (t : Z) (h : Hosts) : Hosts :=
  match fuel with
  | O => h
  | S fuel' =>
      match earliest (htimers h) with
      | Some tm => if due tm <=? t then run_due_in fuel' t (fire_in tm h) else h
      | None => h
      end
  end.

Definition advance_in (t : Z) (h : Hosts) : Hosts :=
  let h' := run_due_in (length (htimers h)) t h in
  mkHosts (Z.max (hnow h') t) (htimers h') (hnext_id h') (htimeout h')
    (htarget h') (hinvocations h').

(** The timers that hold a [later] of the debounced function [i]. *)
Definition timers_of (i : nat) (h : Hosts) : list (Timer (nat * A)) :=
  filter (fun t => (timer_args t).1 = i) (htimers h).

(** Handles are not reused: the pending timers have handles below the next
    one, different from each other, and a closure's [timeout] is [null] or
    the handle of the one pending timer of that closure. *)
Definition hosts_ok (h : Hosts) : Prop :=
  0 < hnext_id h /\
  Forall (fun t => 0 < timer_id t < hnext_id h) (htimers h) /\
  NoDup (map timer_id (htimers h)) /\
  forall i,
    match htimeout h i with
    | None => timers_of i h = []
    | Some id => exists d a, timers_of i h = [mkTimer id d (i, a)]
    end.

(** The one pending timer is that of the call of the debounced function
    [k] made at [t] with [a]; nothing has run. *)
Definition armed_in (k : nat) (h : Hosts) (t : Z) (a : A) (st : St) : Prop :=
  exists id,
    htimers h = [mkTimer id (t + waits k) (k, a)] /\
    htimeout h k = Some id /\ id <> 0 /\ 0 < hnext_id h /\
    hnow h = t /\ hinvocations h = [] /\ htarget h = st.

(** A call, at a time, of the debounced function of a number. *)
Definition call_in (c : Z * (nat * A)) (h : Hosts) : Hosts :=
  executedFunction_of c.2.1 c.2.2 (advance_in c.1 h).

Definition run_calls_in (cs : list (Z * (nat * A))) (h : Hosts) : Hosts :=
  fold_left (fun h c => call_in c h) cs h.

(** Calls that all go to the debounced function [k]. *)
Definition through (k : nat) (cs : list (Z * A)) : list (Z * (nat * A)) :=
  map (fun c => (c.1, (k, c.2))) cs.

(** The hosts that calls of debounced functions and the passing of time
    lead to. *)
Inductive reachable : Hosts -> Prop :=
| reach_fresh (t0 : Z) (st : St) : reachable (fresh_hosts t0 st)
| reach_call (h : Hosts) (i : nat) (args : A) :
    reachable h -> reachable (executedFunction_of i args h)
| reach_advance (h : Hosts) (t : Z) :
    reachable h -> reachable (advance_in t h).

End DebounceInstances.

Arguments hnow {A St} _.
Arguments htimers {A St} _.
Arguments hnext_id {A St} _.
Arguments htimeout {A St} _ _.
Arguments htarget {A St} _.
Arguments hinvocations {A St} _.
Arguments fresh_hosts {A St} _ _.
Arguments clearTimeout_in {A St} _ _.
Arguments executedFunction_of {A St} _ _ _ _.
Arguments later_of {A St} _ _ _ _.
Arguments fire_in {A St} _ _ _.
Arguments run_due_in {A St} _ _ _ _.
Arguments advance_in {A St} _ _ _.
Arguments timers_of {A St} _ _.
Arguments hosts_ok {A St} _.
Arguments reachable {A St} _ _ _.
Arguments call_in {A St} _ _ _ _.
Arguments armed_in {A St} _ _ _ _ _ _.
Arguments run_calls_in {A St} _ _ _ _.
Arguments through {A} _ _.

(** ** The change handler of the component

    [const handleEditorChange = debounce((value) => { ... }, 300)] stands in
    the body of the component: every render makes a debounced function of
    its own, which [<Editor onChange={handleEditorChange}>] hands to Monaco.
    The debounced function of render [i] has number [i]; its [func] is the
    update with the props of that render. *)

Definition render_wait : nat -> Z := fun _ => 300.

Definition handleEditorChange (render : nat) (value : option string)
    {St : Type} (h : Hosts (option string) St) : Hosts (option string) St :=
  executedFunction_of render_wait render value h.

Definition change_handlers {PM : ProseMirror} (props : nat -> Props)
    (render : nat) (value : option string)
    : World * list Effect -> World * list Effect :=
  change_handler (props render) value.

(** The changes Monaco reports: each at a time, to the handler of a render,
    with a value; the event loop runs in between. *)
Definition editor_changes {PM : ProseMirror} (props : nat -> Props)
    (cs : list (Z * (nat * option string)))
    (h : Hosts (option string) (World * list Effect))
    : Hosts (option string) (World * list Effect) :=
  fold_left
    (fun h c =>
       handleEditorChange c.2.1 c.2.2 (advance_in (change_handlers props) c.1 h))
    cs h.

(** ** A small implementation of the editor interface

    Documents that are a sequence of text blocks, addressed the ProseMirror
    way: a block takes its content's size plus two positions, a text node
    one position per character.  It serves to run the handlers on concrete
    documents. *)
Module Blocks.

Fixpoint nodeSize (n : PMNode) : Z :=
  match n with
  | mkNode _ _ c _ (Some s) => Z.of_nat (String.length s)
  | mkNode _ _ c _ None =>
      2 + (fix sizes (l : list PMNode) : Z :=
             match l with
             | [] => 0
             | x :: l' => nodeSize x + sizes l'
             end) c
  end.

Fixpoint textContent (n : PMNode) : string :=
  match n with
  | mkNode _ _ c _ (Some s) => s
  | mkNode _ _ c _ None =>
      (fix texts (l : list PMNode) : string :=
         match l with
         | [] => ""%string
         | x :: l' => (textContent x ++ texts l')%string
         end) c
  end.

Definition content_size (d : list PMNode) : Z :=
  fold_right (fun b acc => nodeSize b + acc) 0 d.

(** The child that covers [pos], among children laid out from [start]. *)
Fixpoint child_at (l : list PMNode) (start pos : Z) : option (Z * PMNode) :=
  match l with
  | [] => None
  | x :: l' =>
      if pos <? start + nodeSize x then Some (start, x)
      else child_at l' (start + nodeSize x) pos
  end.

(** The node directly after [pos]: a block at its start, and inside a
    block the text that covers the position; a position outside of the
    document raises. *)
Definition nodeAt (d : list PMNode) (pos : JsPos) : Outcome (option PMNode) :=
  match pos with
  | PNum z =>
      if (z <? 0) || (content_size d <? z) then
        Throw (RangeError "Position outside of fragment")
      else
        match child_at d 0 z with
        | None => Ok None
        | Some (start, b) =>
            if z =? start then Ok (Some b)
            else Ok (snd <$> child_at (content b) (start + 1) z)
        end
  | _ => Throw (RangeError "Index out of range")
  end.

(** The blocks before position [pos] and those from it on, when [pos] is
    a block boundary. *)
Fixpoint split_at (l : list PMNode) (start pos : Z)
    : option (list PMNode * list PMNode) :=
  if pos =? start then Some ([], l)
  else
    match l with
    | [] => None
    | x :: l' =>
        '(before, after) ← split_at l' (start + nodeSize x) pos;
        Some (x :: before, after)
    end.

(** Replace the blocks between two block boundaries. *)
Definition replace_range (d : list PMNode) (from to : JsPos) (new : list PMNode)
    : option (list PMNode) :=
  match from, to with
  | PNum f, PNum t =>
      '(before, rest) ← split_at d 0 f;
      '(_, after) ← split_at rest f t;
      Some (before ++ new ++ after)
  | _, _ => None
  end.

(** Steps between block boundaries are applied; this implementation
    leaves any other step without effect. *)
Definition applyStep (d : list PMNode) (s : Step) : list PMNode :=
  default d
    match s with
    | StepInsert pos n => replace_range d pos pos [n]
    | StepDelete from to => replace_range d from to []
    | StepReplaceWith from to n => replace_range d from to [n]
    end.

Definition applyTransaction (d : list PMNode) (tr : Transaction) : list PMNode :=
  fold_left applyStep tr d.

Definition editor : ProseMirror :=
  Build_ProseMirror (list PMNode)
    nodeAt content_size nodeSize textContent applyTransaction.

(** Sample documents. *)
Definition codeBlock (lang : JsVal) (code : string) : PMNode :=
  mkNode "codeBlock" {[ "language"%string := lang ]}
    (if String.eqb code "" then [] else [schema_text code]) [] None.

Definition paragraph (s : string) : PMNode :=
  mkNode "paragraph" ∅ (if String.eqb s "" then [] else [schema_text s]) [] None.

(** A Monaco editor over [lines], the cursor at [line], [col]. *)
Definition monaco_on (lines : list string) (line col : Z) : MonacoEditor :=
  mkMonaco
    (Some (mkModel (Z.of_nat (length lines))
             (fun n => 1 + Z.of_nat (String.length (nth (Z.to_nat (n - 1)) lines ""%string)))))
    (Some (mkPosition line col)).

Definition world (d : list PMNode) (m : MonacoEditor) : @World editor :=
  mkWorld (PM:=editor) d false ""%string (Some m).

(** A paragraph followed by a code block, which is the last node; the
    block starts at position 7 and ends at 14, the size of the content. *)
Definition block_last : list PMNode :=
  [paragraph "intro"; codeBlock (JStr "python") "x = 1"].

Definition props_last : Props :=
  mkProps (codeBlock (JStr "python") "x = 1") (GetPosFn (Some 7)) false.

(** A code block that is the first node, a paragraph after it. *)
Definition block_first : list PMNode :=
  [codeBlock (JStr "python") "x = 1"; paragraph "outro"].

Definition props_first : Props :=
  mkProps (codeBlock (JStr "python") "x = 1") (GetPosFn (Some 0)) false.

(** A code block without a language. *)
Definition props_plain : Props :=
  mkProps (mkNode "codeBlock" ∅ [schema_text "x = 1"] [] None)
    (GetPosFn (Some 0)) false.

(** The code block of [block_last] after its text has shrunk to one
    character: the content is 10 positions long, and the block still starts
    at position 7. *)
Definition block_shrunk : list PMNode :=
  [paragraph "intro"; codeBlock (JStr "python") "x"].

Definition cursor_after_x : MonacoEditor := monaco_on ["x"%string] 1 2.

Definition cursor_at_end : MonacoEditor := monaco_on ["x = 1"%string] 1 6.
Definition cursor_at_start : MonacoEditor := monaco_on ["x = 1"%string] 1 1.

End Blocks.

(** * Properties *)

(** Unfold a handler down to the state it returns and the effects it logs. *)
Ltac run_eff :=
  unfold effects_of, state_of, outcome_of, dispatch, focus, monaco_setPosition,
    call_getPos, emit, gets, modify, throw, lift_outcome, try_catch_finally,
    mbind, mret, Eff_bind, Eff_ret in *;
  cbn [fst snd] in *.

Section ComponentFacts.
Context {PM : ProseMirror}.

Lemma no_dispatch_nil : no_dispatch [].
Proof. constructor. Qed.

Lemma atEndOfLastLine_spec (model : ITextModel) (position : Position) :
  atEndOfLastLine model position = true <->
  lineNumber position = getLineCount model /\
  column position = getLineMaxColumn model (getLineCount model).
Proof.
  unfold atEndOfLastLine. rewrite andb_true_iff, !Z.eqb_eq. tauto.
Qed.

Lemma atStartOfFirstLine_spec (position : Position) :
  atStartOfFirstLine position = true <->
  lineNumber position = 1 /\ column position = 1.
Proof.
  unfold atStartOfFirstLine. rewrite andb_true_iff, !Z.eqb_eq. tauto.
Qed.

Lemma isFirstNode_spec (p : Props) :
  isFirstNode p = true <-> getPos p = GetPosFn (Some 0).
Proof.
  unfold isFirstNode. destruct (getPos p) as [|[pos|]]; split; try discriminate.
  - intros H%Z.eqb_eq. now subst.
  - intros [= ->]. reflexivity.
Qed.

(** X19. The guards on [getPos]: without a position an arrow key is at most
    swallowed; nothing is dispatched and the editor's focus is not moved. *)
Lemma arrow_key_without_position (p : Props) (w : World) (e : KeyCode) :
  getPos p = NotAFunction \/ getPos p = GetPosFn None ->
  Forall (fun x => is_dispatch x = false /\ is_focus x = false)
    (effects_of (onKeyDown p e w)) /\
  doc (state_of (onKeyDown p e w)) = doc w.
Proof.
  intros Hp.
  assert (Hfirst : isFirstNode p = false)
    by (unfold isFirstNode; destruct Hp as [-> | ->]; reflexivity).
  unfold onKeyDown, on_key, onUpArrow, onLeftArrow, onDownArrow,
    onUpOrLeftArrow, onRightArrow. rewrite Hfirst. run_eff.
  destruct Hp as [-> | ->]; destruct e; cbn;
    repeat (case_match; simplify_eq; cbn in *; run_eff);
    split; repeat constructor.
Qed.

(** X20. DownArrow with the cursor at the end of the last line, by where
    the end position the listener computes lies: at the end of the
    document, an empty paragraph is inserted there and focus goes to that
    position plus one; before it, the Monaco cursor goes back to line 1,
    column 1, focus goes to the end position and nothing is inserted;
    beyond it, [tr.insert] raises, and the key has only been swallowed. *)
Theorem downArrow_at_end_of_block
    (p : Props) (w : World) (ed : MonacoEditor)
    (model : ITextModel) (position : Position) (pos : Z) :
  monacoInstance w = Some ed ->
  getModel ed = Some model ->
  getPosition ed = Some position ->
  lineNumber position = getLineCount model ->
  column position = getLineMaxColumn model (getLineCount model) ->
  getPos p = GetPosFn (Some pos) ->
  let endPos := pos + nodeSize (node p) in
  let r := onKeyDown p DownArrow w in
  (endPos = content_size (doc w) -> 0 <= endPos ->
     effects_of r =
       [PreventDefault; StopPropagation;
        Dispatch [StepInsert (PNum endPos) paragraph_create];
        Focus (endPos + 1)] /\
     outcome_of r = Ok tt /\
     doc (state_of r) =
       applyTransaction (doc w) [StepInsert (PNum endPos) paragraph_create] /\
     type_name paragraph_create = "paragraph"%string /\
     content paragraph_create = []) /\
  (endPos < content_size (doc w) ->
     effects_of r =
       [PreventDefault; StopPropagation;
        SetPosition (mkPosition 1 1); Focus endPos] /\
     outcome_of r = Ok tt /\
     no_dispatch (effects_of r) /\
     doc (state_of r) = doc w /\
     (monacoInstance (state_of r) ≫= getPosition) = Some (mkPosition 1 1)) /\
  (content_size (doc w) < endPos ->
     effects_of r = [PreventDefault; StopPropagation] /\
     outcome_of r = Throw (RangeError "Position out of range") /\
     state_of r = w).
Proof.
  intros Hm Hmodel Hposition Hl Hc Hp endPos r.
  assert (Hend : atEndOfLastLine model position = true)
    by (apply atEndOfLastLine_spec; auto).
  subst r. unfold onKeyDown, on_key, onDownArrow, insertNodeAfter_mounted, tr_insert.
  run_eff.
  cbn. rewrite Hm. cbn. rewrite Hmodel, Hposition, Hend, Hp. cbn.
  fold endPos.
  split; [|split].
  - intros Heq Hpos.
    assert (E : (endPos >=? content_size (doc w)) = true)
      by (apply Z.geb_le; lia).
    assert (E1 : (endPos <? 0) = false) by (apply Z.ltb_ge; lia).
    assert (E2 : (content_size (doc w) <? endPos) = false)
      by (apply Z.ltb_ge; lia).
    rewrite E. cbn. rewrite E1, E2. cbn. auto.
  - intros Hcmp.
    assert (E : (endPos >=? content_size (doc w)) = false).
    { destruct (endPos >=? content_size (doc w)) eqn:E'; [|reflexivity].
      apply Z.geb_le in E'. lia. }
    rewrite E. cbn. rewrite Hm. cbn.
    repeat split; auto. repeat constructor.
  - intros Hcmp.
    assert (E : (endPos >=? content_size (doc w)) = true)
      by (apply Z.geb_le; lia).
    assert (E2 : (content_size (doc w) <? endPos) = true)
      by (apply Z.ltb_lt; lia).
    rewrite E. cbn. rewrite E2, orb_true_r. cbn. destruct w; auto.
Qed.

(** C2. UpArrow or LeftArrow with the cursor at line 1, column 1: for the
    first node of the document an empty paragraph is inserted at the
    block's position and focus goes there; otherwise nothing is inserted
    and focus goes to the block's position.  With the cursor anywhere
    else the key causes no transaction. *)
Theorem upOrLeftArrow_at_start_of_block
    (p : Props) (w : World) (ed : MonacoEditor) (e : KeyCode) :
  e = UpArrow \/ e = LeftArrow ->
  monacoInstance w = Some ed ->
  let r := onKeyDown p e w in
  (forall model pos, getModel ed = Some model ->
     getPosition ed = Some (mkPosition 1 1) ->
     getPos p = GetPosFn (Some pos) ->
     (isFirstNode p = true ->
        effects_of r =
          [PreventDefault; StopPropagation;
           Dispatch [StepInsert (PNum pos) paragraph_create];
           Focus pos] /\
        doc (state_of r) =
          applyTransaction (doc w) [StepInsert (PNum pos) paragraph_create] /\
        content paragraph_create = []) /\
     (isFirstNode p = false ->
        effects_of r =
          [PreventDefault; StopPropagation;
           SetPosition (mkPosition 1 1); Focus pos] /\
        no_dispatch (effects_of r) /\
        doc (state_of r) = doc w)) /\
  (getPosition ed <> Some (mkPosition 1 1) ->
     effects_of r = [] /\ state_of r = w).
Proof.
  intros He Hm r. subst r.
  assert (Hrun : onKeyDown p e w = onUpOrLeftArrow p ed w).
  { unfold onKeyDown, on_key, onUpArrow, onLeftArrow. run_eff.
    destruct He as [-> | ->]; cbn; rewrite Hm;
      destruct (onUpOrLeftArrow p ed w) as [[s l] [[]|err]]; cbn;
      rewrite ?app_nil_r; reflexivity. }
  rewrite Hrun. clear Hrun. unfold onUpOrLeftArrow, insertNodeBefore. run_eff.
  split.
  - intros model pos Hmodel Hposition Hp. rewrite Hmodel, Hposition. cbn.
    split; intros Hfirst; rewrite Hfirst, Hp; cbn.
    + auto.
    + rewrite Hm. cbn. repeat split; auto. repeat constructor.
  - intros Hposition.
    destruct (getModel ed) as [model|]; [|auto].
    destruct (getPosition ed) as [[l c]|] eqn:Hposition'; [|auto].
    destruct (atStartOfFirstLine (mkPosition l c)) eqn:Hstart; [|auto].
    apply atStartOfFirstLine_spec in Hstart. cbn in Hstart.
    destruct Hstart as [-> ->]. contradiction.
Qed.

(** C3. Boundary detection: [isFirstNode] answers true exactly when
    [getPos] is a function whose result is defined and is 0; the
    DownArrow and RightArrow branches act exactly when the cursor's line
    is [model.getLineCount()] and its column is
    [model.getLineMaxColumn] of that line. *)
Theorem boundary_detection :
  (forall p : Props,
     isFirstNode p = true <->
     exists r, getPos p = GetPosFn r /\ exists pos, r = Some pos /\ pos = 0) /\
  (forall model position,
     atEndOfLastLine model position = true <->
     lineNumber position = getLineCount model /\
     column position = getLineMaxColumn model (getLineCount model)) /\
  (forall p d u i model position,
     let w := mkWorld d u i (Some (mkMonaco (Some model) (Some position))) in
     In PreventDefault (effects_of (onKeyDown p DownArrow w)) <->
     lineNumber position = getLineCount model /\
     column position = getLineMaxColumn model (getLineCount model)) /\
  (forall p d u i model position,
     let w := mkWorld d u i (Some (mkMonaco (Some model) (Some position))) in
     In PreventDefault (effects_of (onKeyDown p RightArrow w)) <->
     lineNumber position = getLineCount model /\
     column position = getLineMaxColumn model (getLineCount model)).
Proof.
  split; [|split; [|split]].
  - intros p. rewrite isFirstNode_spec. split.
    + intros ->. eauto.
    + intros (r & -> & pos & -> & ->). reflexivity.
  - apply atEndOfLastLine_spec.
  - intros p d u i model position w.
    rewrite <- atEndOfLastLine_spec. subst w.
    unfold onKeyDown, on_key, onDownArrow. run_eff. cbn.
    destruct (atEndOfLastLine model position); cbn.
    + split; [reflexivity|]. intros _.
      repeat case_match; simplify_eq; cbn; auto.
    + split; [intros []|discriminate].
  - intros p d u i model position w.
    rewrite <- atEndOfLastLine_spec. subst w.
    unfold onKeyDown, on_key, onRightArrow. run_eff. cbn.
    destruct (atEndOfLastLine model position); cbn.
    + split; [reflexivity|]. intros _.
      repeat case_match; simplify_eq; cbn; auto.
    + split; [intros []|discriminate].
Qed.

Lemma rightArrow_no_dispatch (p : Props) (w : World) :
  no_dispatch (effects_of (onKeyDown p RightArrow w)) /\
  doc (state_of (onKeyDown p RightArrow w)) = doc w.
Proof.
  unfold onKeyDown, on_key, onRightArrow, no_dispatch. run_eff. cbn.
  repeat (case_match; simplify_eq; cbn in *; run_eff);
    split; repeat constructor.
Qed.


(** C5. The delete button: when the document has a node at [getPos()],
    one transaction is dispatched, and it deletes from that position to
    the position plus that node's size; when it has none, nothing is
    dispatched and nothing changes. *)
Theorem handleDelete_spec (p : Props) (w : World) (r : option Z) :
  getPos p = GetPosFn r ->
  let pos := pos_result r in
  let res := handleDelete p w in
  (forall nodeAtPos, nodeAt (doc w) pos = Ok (Some nodeAtPos) ->
     effects_of res =
       [Dispatch [StepDelete pos (js_add pos (nodeSize nodeAtPos))]] /\
     doc (state_of res) =
       applyTransaction (doc w)
         [StepDelete pos (js_add pos (nodeSize nodeAtPos))] /\
     (forall z, r = Some z ->
        js_add pos (nodeSize nodeAtPos) = PNum (z + nodeSize nodeAtPos))) /\
  (nodeAt (doc w) pos = Ok None ->
     effects_of res = [] /\ state_of res = w) /\
  (forall err, nodeAt (doc w) pos = Throw err ->
     effects_of res = [] /\ state_of res = w).
Proof.
  intros Hp pos res. subst res. unfold handleDelete. rewrite Hp. fold pos.
  run_eff. cbn.
  split; [|split].
  - intros n Hn. rewrite Hn. cbn. repeat split.
    intros z ->. reflexivity.
  - intros Hn. rewrite Hn. auto.
  - intros err Hn. rewrite Hn. auto.
Qed.

(** What a run of the change handler does, case by case. *)
Lemma updateContent_skips (p : Props) (value : option string) (w : World) :
  value_falsy value || isUpdatingRef w = true ->
  updateContent p value w = (w, [], Ok tt).
Proof.
  intros H. unfold updateContent. run_eff. rewrite H. reflexivity.
Qed.

Lemma updateContent_replaces (p : Props) (v : string) (w : World)
    (r : option Z) (originalNode : PMNode) :
  value_falsy (Some v) || isUpdatingRef w = false ->
  getPos p = GetPosFn r ->
  nodeAt (doc w) (pos_result r) = Ok (Some originalNode) ->
  let pos := pos_result r in
  let newNode :=
    mkNode (type_name originalNode) (attrs originalNode)
      [schema_text v] (marks originalNode) None in
  let tr := [StepReplaceWith pos (js_add pos (nodeSize originalNode)) newNode] in
  updateContent p (Some v) w =
    (mkWorld (applyTransaction (doc w) tr) true v (monacoInstance w),
     [Dispatch tr; SetTimeout ResetIsUpdating 0], Ok tt).
Proof.
  intros H Hp Hn. cbv zeta. unfold updateContent. run_eff.
  rewrite H, Hp. cbn. rewrite Hn. reflexivity.
Qed.

Lemma updateContent_dispatches (p : Props) (value : option string)
    (w : World) (tr : Transaction) :
  In (Dispatch tr) (effects_of (updateContent p value w)) ->
  exists r originalNode v,
    value_falsy value || isUpdatingRef w = false /\
    getPos p = GetPosFn r /\
    nodeAt (doc w) (pos_result r) = Ok (Some originalNode) /\
    value = Some v /\
    tr = [StepReplaceWith (pos_result r)
            (js_add (pos_result r) (nodeSize originalNode))
            (mkNode (type_name originalNode) (attrs originalNode)
               [schema_text v] (marks originalNode) None)].
Proof.
  unfold updateContent. run_eff.
  destruct (value_falsy value || isUpdatingRef w) eqn:Hguard; cbn;
    [intros []|].
  destruct (getPos p) as [|r] eqn:Hp; cbn.
  { intros [|[|[]]]; discriminate. }
  destruct (nodeAt (doc w) (pos_result r)) as [[originalNode|]|err] eqn:Hn; cbn.
  - destruct value as [v|]; cbn.
    + intros [[= <-]|[|[]]]; [|discriminate].
      exists r, originalNode, v. auto.
    + intros [|[]]; discriminate.
  - intros [|[|[]]]; discriminate.
  - intros [|[|[]]]; discriminate.
Qed.

(** C8. Whenever the change handler replaces the content of the code
    block, the node it puts in has the type, the attributes (the language
    among them) and the marks of the node that was at that position, and
    its only child is a text node holding the new value. *)
Theorem replacement_keeps_type_attrs_marks
    (p : Props) (value : option string) (w : World) (tr : Transaction) :
  In (Dispatch tr) (effects_of (updateContent p value w)) ->
  exists (r : option Z) (originalNode newNode : PMNode) (v : string),
    getPos p = GetPosFn r /\
    nodeAt (doc w) (pos_result r) = Ok (Some originalNode) /\
    value = Some v /\
    tr = [StepReplaceWith (pos_result r)
            (js_add (pos_result r) (nodeSize originalNode)) newNode] /\
    type_name newNode = type_name originalNode /\
    attrs newNode = attrs originalNode /\
    prop (attrs newNode) "language" = prop (attrs originalNode) "language" /\
    marks newNode = marks originalNode /\
    content newNode = [schema_text v] /\
    text (schema_text v) = Some v.
Proof.
  intros (r & originalNode & v & _ & Hp & Hn & -> & ->)%updateContent_dispatches.
  exists r, originalNode.
  eexists. exists v. repeat split; eauto.
Qed.

(** C9. When the change handler fires with [undefined] or the empty
    string, or while an update is in progress, or when the document has
    no node at [getPos()], it dispatches nothing and the document stays
    as it is.  In particular the empty value of a Monaco widget whose
    text was deleted is never written to the document: a replacement the
    handler dispatches always carries a text that is not empty. *)
Theorem updateContent_guards
    (p : Props) (value : option string) (w : World) :
  value = None \/ value = Some ""%string \/ isUpdatingRef w = true \/
    (exists r, getPos p = GetPosFn r /\ nodeAt (doc w) (pos_result r) = Ok None) ->
  let res := updateContent p value w in
  no_dispatch (effects_of res) /\
  doc (state_of res) = doc w /\
  (value = Some ""%string -> effects_of res = [] /\ state_of res = w) /\
  (forall value' w' tr,
     In (Dispatch tr) (effects_of (updateContent p value' w')) ->
     exists from to n v,
       tr = [StepReplaceWith from to n] /\
       content n = [schema_text v] /\ v <> ""%string).
Proof.
  intros H res.
  assert (Hempty : value = Some ""%string -> effects_of res = [] /\ state_of res = w).
  { intros ->. subst res. rewrite updateContent_skips; auto. }
  assert (Hnone : no_dispatch (effects_of res) /\ doc (state_of res) = doc w).
  { destruct H as [-> | [-> | [Hu | (r & Hp & Hn)]]].
    - subst res. rewrite updateContent_skips; [split; [constructor|]|]; auto.
    - destruct Hempty as [-> ->]; [reflexivity|]. split; [constructor|auto].
    - subst res. rewrite updateContent_skips; [split; [constructor|]; auto|].
      rewrite Hu. apply orb_true_r.
    - subst res. unfold updateContent, no_dispatch. run_eff.
      destruct (value_falsy value || isUpdatingRef w); cbn;
        [split; [constructor|reflexivity]|].
      rewrite Hp. cbn. rewrite Hn. cbn. split; [repeat constructor|reflexivity]. }
  destruct Hnone as [Hnd Hdoc].
  split; [exact Hnd|]. split; [exact Hdoc|]. split; [exact Hempty|].
  intros value' w' tr (r & originalNode & v & Hg & _ & _ & -> & ->)%updateContent_dispatches.
  eexists _, _, _, v. repeat split; eauto.
  intros ->. cbn in Hg. discriminate.
Qed.

(** C10. A node whose language attribute is absent or falsy is shown as
    javascript: the selector's value is javascript, which is one of its
    options, and the Monaco editor gets javascript as its language and
    its default language. *)
Theorem language_defaults_to_javascript (p : Props) :
  attrs (node p) !! "language"%string = None \/
    (exists v, attrs (node p) !! "language"%string = Some v /\ truthy v = false) ->
  language p = JStr "javascript" /\
  select_value (render p) = JStr "javascript" /\
  shown_option (render p) = Some (mkOption "javascript" "javascript" "javascript") /\
  editor_language (render p) = JStr "javascript" /\
  editor_defaultLanguage (render p) = JStr "javascript" /\
  (forall p' : Props,
     prop (attrs (node p')) "language" = JStr "javascript" ->
     textContent (node p') = textContent (node p) ->
     render p = render p').
Proof.
  intros H.
  assert (Hl : language p = JStr "javascript").
  { unfold language, js_or, prop.
    destruct H as [-> | (v & -> & Hv)]; cbn; [reflexivity|].
    rewrite Hv. reflexivity. }
  unfold shown_option, render. cbn [select_value select_options
    editor_language editor_defaultLanguage].
  rewrite Hl. repeat split; try reflexivity.
  intros p' Hl' Htext. unfold language. rewrite Hl', Htext. reflexivity.
Qed.

(** C7. The selector offers the thirteen languages, in the order of the
    source, once each, and they are all the members of
    [ProgrammingLanguage]; choosing one calls [updateAttributes] with
    that value as the language, which makes it the node's language
    attribute. *)
Theorem language_selection :
  map language_name languages =
    ["javascript"; "typescript"; "html"; "css"; "json"; "python"; "java";
     "csharp"; "php"; "ruby"; "go"; "rust"; "shell"]%string /\
  length languages = 13%nat /\
  NoDup (map language_name languages) /\
  (forall l : ProgrammingLanguage, In l languages) /\
  (forall p : Props,
     select_options (render p) =
       map (fun l => mkOption (language_name l) (language_name l) (language_name l))
         languages /\
     forall s : string,
       In s (map option_value (select_options (render p))) <->
       exists l : ProgrammingLanguage, language_name l = s) /\
  (forall (value : string) (w : World) (n : PMNode),
     effects_of (onLanguageChange value w) =
       [UpdateAttributes {[ "language"%string := JStr value ]}] /\
     state_of (onLanguageChange value w) = w /\
     prop (merged_attrs n {[ "language"%string := JStr value ]}) "language"
       = JStr value).
Proof.
  split; [reflexivity|]. split; [reflexivity|].
  split.
  { cbn. compute_done. }
  split.
  { intros []; cbn; tauto. }
  split.
  - intros p. split; [reflexivity|]. intros s.
    unfold render; cbn [select_options]. rewrite map_map. cbn [option_value].
    rewrite in_map_iff. split.
    + intros (l & Hl & _). eauto.
    + intros (l & Hl). exists l. split; [auto|]. destruct l; cbn; tauto.
  - intros value w n. repeat split.
    unfold prop, merged_attrs.
    rewrite lookup_union_l'; rewrite lookup_singleton_eq; eauto.
Qed.

End ComponentFacts.

(** ** The debounced function *)

Lemma last_cons_default {X : Type} (l : list X) :
  forall x d : X, List.last (x :: l) d = List.last l x.
Proof.
  induction l as [|y l IH]; intros x d; [reflexivity|].
  change (List.last (x :: y :: l) d) with (List.last (y :: l) d).
  rewrite (IH y d), (IH y x). reflexivity.
Qed.

Section DebounceFacts.
Context {A St : Type}.
Variable func : A -> St -> St.
Variable wait : Z.
Hypothesis wait_pos : 0 < wait.

(** *** The event loop runs every timer that is due *)

Lemma earliest_None (l : list (Timer A)) :
  earliest l = None -> l = [].
Proof.
  destruct l as [|x l]; [reflexivity|]. cbn.
  destruct (earliest l) as [y|]; [|discriminate].
  destruct (due y <? due x); discriminate.
Qed.

Lemma earliest_Some (l : list (Timer A)) (tm : Timer A) :
  earliest l = Some tm ->
  tm ∈ l /\ forall x, x ∈ l -> due tm <= due x.
Proof.
  revert tm. induction l as [|x l IH]; intros tm; [discriminate|]. cbn.
  destruct (earliest l) as [y|] eqn:E.
  - destruct (IH y eq_refl) as [Hy Hmin].
    destruct (due y <? due x) eqn:Hlt; intros [= <-].
    + apply Z.ltb_lt in Hlt. split; [apply elem_of_cons; auto|].
      intros z Hz. apply elem_of_cons in Hz as [Hz|Hz]; [subst z; lia|auto].
    + apply Z.ltb_ge in Hlt. split; [apply elem_of_cons; auto|].
      intros z Hz. apply elem_of_cons in Hz as [Hz|Hz]; [subst z; lia|].
      specialize (Hmin z Hz). lia.
  - intros [= <-]. apply earliest_None in E. subst l.
    split; [apply elem_of_cons; auto|].
    intros z Hz. apply elem_of_cons in Hz as [Hz|Hz]; [subst z; lia|].
    inversion Hz.
Qed.

Lemma fire_removes (tm : Timer A) (h : Host A St) :
  tm ∈ timers h ->
  (length (timers (fire func tm h)) < length (timers h))%nat.
Proof.
  unfold fire, later. cbn. generalize (timers h). intros l Hin.
  induction l as [|x l IH]; [inversion Hin|]. cbn.
  apply elem_of_cons in Hin as [<-|Hin].
  - rewrite decide_False by (intros Hne; apply Hne; reflexivity).
    apply Nat.lt_succ_r, length_filter.
  - specialize (IH Hin). destruct (decide (timer_id x ≠ timer_id tm)); cbn.
    + apply -> Nat.succ_lt_mono. exact IH.
    + apply Nat.lt_lt_succ_r. exact IH.
Qed.

Lemma run_due_complete (T : Z) (fuel : nat) :
  forall h : Host A St,
    (length (timers h) <= fuel)%nat ->
    forall tm, tm ∈ timers (run_due func fuel T h) -> T < due tm.
Proof.
  induction fuel as [|fuel IH]; intros h Hlen tm Htm.
  - cbn in Htm. destruct (timers h); [inversion Htm|cbn in Hlen; lia].
  - cbn in Htm. destruct (earliest (timers h)) as [next|] eqn:E.
    + destruct (earliest_Some _ _ E) as [Hin Hmin].
      destruct (due next <=? T) eqn:Hdue.
      * apply (IH (fire func next h)); [|exact Htm].
        pose proof (fire_removes next h Hin). lia.
      * apply Z.leb_gt in Hdue. specialize (Hmin tm Htm). lia.
    + apply earliest_None in E. rewrite E in Htm. inversion Htm.
Qed.

(** After [advance func T], no timer due at or before [T] is left: the
    rounds [advance] allows are enough. *)
Lemma advance_complete (T : Z) (h : Host A St) (tm : Timer A) :
  tm ∈ timers (advance func T h) -> T < due tm.
Proof.
  unfold advance. cbn. apply run_due_complete. lia.
Qed.

Lemma first_call_arms (t0 t : Z) (a : A) (st : St) :
  t0 <= t ->
  armed wait (call_at func wait (t, a) (fresh_host t0 st)) t a st /\
  Forall at_most_one_pending (history func wait [(t, a)] (fresh_host t0 st)).
Proof.
  intros Ht. split.
  - exists 1. unfold call_at, executedFunction, advance, fresh_host. cbn.
    rewrite !Z.max_r by lia. repeat split; auto; lia.
  - unfold history, call_at, executedFunction, advance, fresh_host,
      at_most_one_pending. cbn. repeat constructor.
Qed.

Lemma advance_before_due (h : Host A St) (t T : Z) (a : A) (st : St) :
  armed wait h t a st -> t <= T < t + wait ->
  advance func T h =
    mkHost A St T (timers h) (next_id h) (timeout h) (target h) (invocations h).
Proof.
  intros (id & Htm & Hto & Hid & Hnext & Hnow & Hinv & Htg) HT.
  assert (E : (t + wait <=? T) = false) by (apply Z.leb_gt; lia).
  unfold advance. rewrite Htm. cbn [length run_due]. rewrite Htm.
  cbn [earliest due]. rewrite E, Htm, Hnow. f_equal. lia.
Qed.

Lemma next_call_rearms (h : Host A St) (t t' : Z) (a a' : A) (st : St) :
  armed wait h t a st -> t <= t' < t + wait ->
  armed wait (call_at func wait (t', a') h) t' a' st /\
  Forall at_most_one_pending (history func wait [(t', a')] h).
Proof.
  intros Harmed Ht'.
  pose proof (advance_before_due h t t' a st Harmed Ht') as Hadv.
  destruct Harmed as (id & Htm & Hto & Hid & Hnext & Hnow & Hinv & Htg).
  assert (Hid' : (id =? 0) = false) by (apply Z.eqb_neq; exact Hid).
  split.
  - exists (next_id h). unfold call_at, executedFunction. cbn [fst snd].
    rewrite Hadv. cbn. rewrite Hto. cbn. rewrite Hid'. cbn.
    rewrite Htm. cbn. rewrite decide_False by (intros Hne; apply Hne; reflexivity).
    cbn. rewrite Z.max_r by lia.
    repeat split; auto; try lia.
  - unfold history, call_at, executedFunction, at_most_one_pending.
    cbn [fst snd]. rewrite Hadv. cbn. rewrite Hto. cbn. rewrite Hid'. cbn.
    rewrite Htm. cbn. rewrite decide_False by (intros Hne; apply Hne; reflexivity).
    cbn.
    repeat (apply Forall_cons_2;
            [unfold clearTimeout; cbn; rewrite ?Htm; cbn;
             try (rewrite decide_False by (intros Hne; apply Hne; reflexivity));
             cbn; lia|]).
    apply Forall_nil_2.
Qed.

Lemma advance_after_due (h : Host A St) (t T : Z) (a : A) (st : St) :
  armed wait h t a st -> t + wait <= T ->
  advance func T h =
    mkHost A St T [] (next_id h) None (func a st) [(t + wait, a)].
Proof.
  intros (id & Htm & Hto & Hid & Hnext & Hnow & Hinv & Htg) HT.
  assert (E : (t + wait <=? T) = true) by (apply Z.leb_le; lia).
  unfold advance. rewrite Htm. cbn [length run_due]. rewrite Htm.
  cbn [earliest due]. rewrite E. unfold fire, later. rewrite Htm. cbn.
  rewrite decide_False by (intros Hne; apply Hne; reflexivity). cbn.
  rewrite Hnow, Hinv, Htg. cbn.
  rewrite (Z.max_r t) by lia. rewrite Z.max_r by lia. reflexivity.
Qed.

(** A burst of calls leaves exactly the last one pending. *)
Lemma burst_rearms (cs : list (Z * A)) :
  forall (h : Host A St) (t : Z) (a : A) (st : St),
    armed wait h t a st -> spaced wait t cs ->
    armed wait (run_calls func wait cs h) (List.last cs (t, a)).1 (List.last cs (t, a)).2 st /\
    Forall at_most_one_pending (history func wait cs h).
Proof.
  induction cs as [|[t' a'] cs IH]; intros h t a st Harmed Hsp.
  - cbn. split; [exact Harmed|].
    apply Forall_cons_2; [|apply Forall_nil_2].
    destruct Harmed as (id & Htm & _). unfold at_most_one_pending.
    rewrite Htm. cbn. lia.
  - destruct Hsp as [Ht' Hsp]. cbn [fst] in Ht', Hsp.
    destruct (next_call_rearms h t t' a a' st Harmed Ht') as [Harmed' Hhist].
    destruct (IH _ _ _ _ Harmed' Hsp) as [Hfinal Hrest].
    split.
    + change (run_calls func wait ((t', a') :: cs) h)
        with (run_calls func wait cs (call_at func wait (t', a') h)).
      replace (List.last ((t', a') :: cs) (t, a)) with (List.last cs (t', a')).
      * exact Hfinal.
      * symmetry. apply last_cons_default.
    + cbn [history]. cbn [history] in Hhist.
      inversion Hhist as [|? ? H1 Hhist1]; subst.
      inversion Hhist1 as [|? ? H2 Hhist2]; subst.
      inversion Hhist2 as [|? ? H3 _]; subst.
      repeat (apply Forall_cons_2; [assumption|]). exact Hrest.
Qed.

Lemma advance_too_early (h : Host A St) (t T : Z) (a : A) (st : St) :
  armed wait h t a st -> T < t + wait ->
  invocations (advance func T h) = [] /\ timers (advance func T h) = timers h.
Proof.
  intros (id & Htm & Hto & Hid & Hnext & Hnow & Hinv & Htg) HT.
  assert (E : (t + wait <=? T) = false) by (apply Z.leb_gt; lia).
  unfold advance. rewrite Htm. cbn [length run_due]. rewrite Htm.
  cbn [earliest due]. rewrite E. cbn. auto.
Qed.

(** A burst of calls, each less than [wait] after the one before: [func]
    runs once, [wait] after the last call and with its arguments; until
    then it has not run; and never is more than one timer pending. *)
Lemma debounce_burst (t0 : Z) (st : St) (c : Z * A) (cs : list (Z * A)) (T : Z) :
  t0 <= c.1 -> spaced wait c.1 cs ->
  let lastc := List.last cs c in
  let h0 := fresh_host t0 st in
  let h := run_calls func wait (c :: cs) h0 in
  lastc.1 + wait <= T ->
  invocations (advance func T h) = [(lastc.1 + wait, lastc.2)] /\
  target (advance func T h) = func lastc.2 st /\
  timers (advance func T h) = [] /\
  (forall T', T' < lastc.1 + wait -> invocations (advance func T' h) = []) /\
  (exists id, timers h = [mkTimer id (lastc.1 + wait) lastc.2]) /\
  Forall at_most_one_pending
    (history func wait (c :: cs) h0 ++ [advance func T h]).
Proof.
  intros Ht0 Hsp lastc h0 h HT. destruct c as [t a]. cbn [fst] in Ht0, Hsp.
  destruct (first_call_arms t0 t a st Ht0) as [Harmed Hhist].
  destruct (burst_rearms cs _ _ _ _ Harmed Hsp) as [Hfinal Hrest].
  fold lastc in Hfinal.
  change (run_calls func wait cs (call_at func wait (t, a) (fresh_host t0 st)))
    with h in Hfinal.
  pose proof (advance_after_due h _ T _ _ Hfinal HT) as Hadv.
  split; [rewrite Hadv; reflexivity|].
  split; [rewrite Hadv; reflexivity|].
  split; [rewrite Hadv; reflexivity|].
  split.
  { intros T' HT'. apply (advance_too_early h _ T' _ _ Hfinal HT'). }
  split.
  { destruct Hfinal as (id & Htm & _). eauto. }
  apply Forall_app. split.
  - cbn [history]. cbn [history] in Hhist.
    inversion Hhist as [|? ? H1 Hhist1]; subst.
    inversion Hhist1 as [|? ? H2 Hhist2]; subst.
    inversion Hhist2 as [|? ? H3 _]; subst.
    repeat (apply Forall_cons_2; [assumption|]). exact Hrest.
  - apply Forall_cons_2; [|apply Forall_nil_2].
    unfold at_most_one_pending. rewrite Hadv. cbn. lia.
Qed.

End DebounceFacts.

(** ** The handlers on sample documents *)

(** C1. The claim fails on the code where the listener's node is out of
    date.  The editor was mounted on the block ["x = 1"] (7 positions) at
    position 7, and the block has since shrunk to ["x"], the document to 10
    positions.  DownArrow at the end of the text: the end position the
    listener computes is 14, at or after the end of the document, so it
    calls [insertNodeAfter]; [tr.insert(14, ...)] raises, no paragraph is
    inserted and focus does not move. *)
Theorem downArrow_stale_end_raises :
  let p := Blocks.props_last in
  let w := Blocks.world Blocks.block_shrunk Blocks.cursor_after_x in
  getPos p = GetPosFn (Some 7) /\
  7 + nodeSize (ProseMirror:=Blocks.editor) (node p) = 14 /\
  content_size (ProseMirror:=Blocks.editor) (doc w) = 10 /\
  onKeyDown (PM:=Blocks.editor) p DownArrow w =
    (w, [PreventDefault; StopPropagation],
     Throw (RangeError "Position out of range")).
Proof. repeat split. Qed.

Lemma downArrow_at_end_of_block_witness :
  (effects_of
     (onKeyDown (PM:=Blocks.editor) Blocks.props_last DownArrow
        (Blocks.world Blocks.block_last Blocks.cursor_at_end)) =
   [PreventDefault; StopPropagation;
    Dispatch [StepInsert (PNum 14) paragraph_create]; Focus 15] /\
   doc (state_of
     (onKeyDown (PM:=Blocks.editor) Blocks.props_last DownArrow
        (Blocks.world Blocks.block_last Blocks.cursor_at_end))) =
   [Blocks.paragraph "intro"; Blocks.codeBlock (JStr "python") "x = 1";
    paragraph_create]) /\
  (effects_of
     (onKeyDown (PM:=Blocks.editor) Blocks.props_first DownArrow
        (Blocks.world Blocks.block_first Blocks.cursor_at_end)) =
   [PreventDefault; StopPropagation; SetPosition (mkPosition 1 1); Focus 7] /\
   doc (state_of
     (onKeyDown (PM:=Blocks.editor) Blocks.props_first DownArrow
        (Blocks.world Blocks.block_first Blocks.cursor_at_end))) =
   Blocks.block_first) /\
  effects_of
    (onKeyDown (PM:=Blocks.editor) Blocks.props_last DownArrow
       (Blocks.world Blocks.block_shrunk Blocks.cursor_after_x)) =
  [PreventDefault; StopPropagation].
Proof.
  split; [|split].
  - destruct (downArrow_at_end_of_block (PM:=Blocks.editor) Blocks.props_last
                (Blocks.world Blocks.block_last Blocks.cursor_at_end)
                Blocks.cursor_at_end
                (mkModel 1 (fun n => 1 + Z.of_nat (String.length
                   (nth (Z.to_nat (n - 1)) ["x = 1"%string] ""%string))))
                (mkPosition 1 6) 7
                eq_refl eq_refl eq_refl eq_refl eq_refl eq_refl) as [Hlast _].
    destruct Hlast as (Heff & _ & Hdoc & _);
      [reflexivity|vm_compute; discriminate|].
    split; [exact Heff|exact Hdoc].
  - destruct (downArrow_at_end_of_block (PM:=Blocks.editor) Blocks.props_first
                (Blocks.world Blocks.block_first Blocks.cursor_at_end)
                Blocks.cursor_at_end
                (mkModel 1 (fun n => 1 + Z.of_nat (String.length
                   (nth (Z.to_nat (n - 1)) ["x = 1"%string] ""%string))))
                (mkPosition 1 6) 0
                eq_refl eq_refl eq_refl eq_refl eq_refl eq_refl) as (_ & Hinner & _).
    destruct Hinner as (Heff & _ & _ & Hdoc & _); [vm_compute; reflexivity|].
    split; [exact Heff|exact Hdoc].
  - destruct (downArrow_at_end_of_block (PM:=Blocks.editor) Blocks.props_last
                (Blocks.world Blocks.block_shrunk Blocks.cursor_after_x)
                Blocks.cursor_after_x
                (mkModel 1 (fun n => 1 + Z.of_nat (String.length
                   (nth (Z.to_nat (n - 1)) ["x"%string] ""%string))))
                (mkPosition 1 2) 7
                eq_refl eq_refl eq_refl eq_refl eq_refl eq_refl) as (_ & _ & Hbeyond).
    destruct Hbeyond as (Heff & _); [vm_compute; reflexivity|].
    exact Heff.
Defined.

Lemma upOrLeftArrow_at_start_of_block_witness :
  effects_of
    (onKeyDown (PM:=Blocks.editor) Blocks.props_first UpArrow
       (Blocks.world Blocks.block_first Blocks.cursor_at_start)) =
  [PreventDefault; StopPropagation;
   Dispatch [StepInsert (PNum 0) paragraph_create]; Focus 0] /\
  doc (state_of
    (onKeyDown (PM:=Blocks.editor) Blocks.props_first UpArrow
       (Blocks.world Blocks.block_first Blocks.cursor_at_start))) =
  [paragraph_create; Blocks.codeBlock (JStr "python") "x = 1";
   Blocks.paragraph "outro"] /\
  effects_of
    (onKeyDown (PM:=Blocks.editor) Blocks.props_first UpArrow
       (Blocks.world Blocks.block_first Blocks.cursor_at_end)) = [].
Proof.
  destruct (upOrLeftArrow_at_start_of_block (PM:=Blocks.editor)
              Blocks.props_first
              (Blocks.world Blocks.block_first Blocks.cursor_at_start)
              Blocks.cursor_at_start UpArrow (or_introl eq_refl) eq_refl)
    as [Hstart _].
  destruct (Hstart _ 0 eq_refl eq_refl eq_refl) as [Hfirst _].
  destruct (Hfirst eq_refl) as (Heff & Hdoc & _).
  destruct (upOrLeftArrow_at_start_of_block (PM:=Blocks.editor)
              Blocks.props_first
              (Blocks.world Blocks.block_first Blocks.cursor_at_end)
              Blocks.cursor_at_end UpArrow (or_introl eq_refl) eq_refl)
    as [_ Helse].
  destruct Helse as [Hnone _]; [discriminate|].
  split; [exact Heff|]. split; [exact Hdoc|exact Hnone].
Defined.


Lemma handleDelete_spec_witness :
  effects_of
    (handleDelete (PM:=Blocks.editor) Blocks.props_last
       (Blocks.world Blocks.block_last Blocks.cursor_at_end)) =
  [Dispatch [StepDelete (PNum 7) (PNum 14)]] /\
  doc (state_of
    (handleDelete (PM:=Blocks.editor) Blocks.props_last
       (Blocks.world Blocks.block_last Blocks.cursor_at_end))) =
  [Blocks.paragraph "intro"].
Proof.
  destruct (handleDelete_spec (PM:=Blocks.editor) Blocks.props_last
              (Blocks.world Blocks.block_last Blocks.cursor_at_end)
              (Some 7) eq_refl) as [Hfound _].
  destruct (Hfound (Blocks.codeBlock (JStr "python") "x = 1") eq_refl)
    as (Heff & Hdoc & _).
  split; [exact Heff|exact Hdoc].
Defined.

Lemma replacement_keeps_type_attrs_marks_witness :
  exists (r : option Z) (originalNode newNode : PMNode) (v : string),
    getPos Blocks.props_last = GetPosFn r /\
    nodeAt (ProseMirror:=Blocks.editor) Blocks.block_last (pos_result r)
      = Ok (Some originalNode) /\
    Some "y = 2"%string = Some v /\
    [StepReplaceWith (PNum 7) (PNum 14)
       (Blocks.codeBlock (JStr "python") "y = 2")] =
    [StepReplaceWith (pos_result r)
       (js_add (pos_result r) (nodeSize (ProseMirror:=Blocks.editor) originalNode))
       newNode] /\
    type_name newNode = type_name originalNode /\
    attrs newNode = attrs originalNode /\
    prop (attrs newNode) "language" = prop (attrs originalNode) "language" /\
    marks newNode = marks originalNode /\
    content newNode = [schema_text v] /\
    text (schema_text v) = Some v.
Proof.
  apply (replacement_keeps_type_attrs_marks (PM:=Blocks.editor)
           Blocks.props_last (Some "y = 2"%string)
           (Blocks.world Blocks.block_last Blocks.cursor_at_end)).
  left. reflexivity.
Defined.

Lemma updateContent_guards_witness :
  effects_of
    (updateContent (PM:=Blocks.editor) Blocks.props_last (Some ""%string)
       (Blocks.world Blocks.block_last Blocks.cursor_at_end)) = [] /\
  state_of
    (updateContent (PM:=Blocks.editor) Blocks.props_last (Some ""%string)
       (Blocks.world Blocks.block_last Blocks.cursor_at_end)) =
  Blocks.world Blocks.block_last Blocks.cursor_at_end.
Proof.
  destruct (updateContent_guards (PM:=Blocks.editor) Blocks.props_last
              (Some ""%string)
              (Blocks.world Blocks.block_last Blocks.cursor_at_end)
              (or_intror (or_introl eq_refl)))
    as (_ & _ & Hempty & _).
  exact (Hempty eq_refl).
Defined.

Lemma language_defaults_to_javascript_witness :
  select_value (render (PM:=Blocks.editor) Blocks.props_plain) = JStr "javascript" /\
  editor_language (render (PM:=Blocks.editor) Blocks.props_plain) = JStr "javascript".
Proof.
  destruct (language_defaults_to_javascript (PM:=Blocks.editor)
              Blocks.props_plain (or_introl eq_refl))
    as (_ & Hselect & _ & Heditor & _ & _).
  split; [exact Hselect|exact Heditor].
Defined.

(** * Further properties of the component *)

Section ComponentMore.
Context {PM : ProseMirror}.

Ltac handler_cases :=
  repeat (case_match; simplify_eq; cbn in *; run_eff).

(** An effect that is not in a concrete log. *)
Ltac absurd_in :=
  intros;
  repeat match goal with
         | H : In _ (_ :: _) |- _ => destruct H as [H|H]; [discriminate H|]
         | H : In _ [] |- _ => destruct H
         | H : _ = Dispatch _ \/ _ |- _ => destruct H as [H|H]; [discriminate H|]
         | H : False |- _ => destruct H
         end.

(** X1. The listener swallows a key (preventDefault, stopPropagation, in
    that order and first) exactly when it is an arrow key at its boundary:
    DownArrow or RightArrow at the end of the last line, UpArrow or
    LeftArrow at line 1, column 1.  Any other key press has no effect and
    leaves the state as it is; so has every key while the editor has no
    model or no cursor position. *)
Theorem key_swallowed_at_boundary_only (p : Props) (e : KeyCode) :
  (forall d u i model position,
     let w := mkWorld d u i (Some (mkMonaco (Some model) (Some position))) in
     let at_boundary :=
       match e with
       | DownArrow | RightArrow => atEndOfLastLine model position
       | UpArrow | LeftArrow => atStartOfFirstLine position
       | OtherKey _ => false
       end in
     if at_boundary then
       exists rest,
         effects_of (onKeyDown p e w) = PreventDefault :: StopPropagation :: rest
     else onKeyDown p e w = (w, [], Ok tt)) /\
  (forall d u i ed,
     getModel ed = None \/ getPosition ed = None ->
     let w := mkWorld d u i (Some ed) in
     onKeyDown p e w = (w, [], Ok tt)).
Proof.
  split.
  - intros d u i model position w at_boundary. subst w at_boundary.
    unfold onKeyDown, on_key, onUpArrow, onLeftArrow, onDownArrow,
      onUpOrLeftArrow, onRightArrow, insertNodeAfter, insertNodeBefore.
    run_eff.
    destruct e; cbn;
      try (destruct (atEndOfLastLine model position); cbn);
      try (destruct (atStartOfFirstLine position); cbn);
      try reflexivity;
      handler_cases; eauto.
  - intros d u i ed Hnone w. subst w.
    unfold onKeyDown, on_key, onUpArrow, onLeftArrow, onDownArrow,
      onUpOrLeftArrow, onRightArrow.
    run_eff.
    destruct e; cbn; try reflexivity;
      destruct Hnone as [H | H]; rewrite H; try reflexivity;
      destruct (getModel ed); reflexivity.
Qed.

(** X2. The only transaction a key press can dispatch is the insertion of
    one empty paragraph: by DownArrow, at the block's end position and only
    when that position is at or after the end of the document; by UpArrow
    or LeftArrow, at position 0 and only for the block at position 0.  No
    key deletes or replaces anything. *)
Theorem key_dispatch_is_paragraph_insert
    (p : Props) (e : KeyCode) (w : World) (tr : Transaction) :
  In (Dispatch tr) (effects_of (onKeyDown p e w)) ->
  exists pos,
    getPos p = GetPosFn (Some pos) /\
    ((e = DownArrow /\
      content_size (doc w) <= pos + nodeSize (node p) /\
      tr = [StepInsert (PNum (pos + nodeSize (node p))) paragraph_create]) \/
     ((e = UpArrow \/ e = LeftArrow) /\ pos = 0 /\
      tr = [StepInsert (PNum 0) paragraph_create])).
Proof.
  unfold onKeyDown, on_key, onUpArrow, onLeftArrow, onDownArrow,
    onUpOrLeftArrow, onRightArrow, insertNodeAfter_mounted, tr_insert,
    insertNodeBefore, isFirstNode.
  run_eff. intros Hin.
  destruct e; cbn in Hin; handler_cases;
    repeat match goal with
    | H : _ \/ _ |- _ => destruct H
    | H : False |- _ => destruct H
    | H : _ = Dispatch _ |- _ => first [discriminate H | injection H as <-]
    | H : (_ >=? _) = true |- _ => apply Z.geb_le in H
    | H : (_ =? _) = true |- _ => apply Z.eqb_eq in H; subst
    end;
    eexists; (split; [reflexivity|]); eauto 10.
Qed.

(** X3. Key handling never touches the two refs and never changes the
    Monaco model; unless it dispatches, the document is the same
    afterwards.  It raises in one case only: DownArrow at the end of the
    last line, when the end position the listener computes lies outside of
    the document and [tr.insert] raises; the key has then been swallowed
    and nothing else has happened. *)
Theorem key_handling_frame (p : Props) (e : KeyCode) (w : World) :
  let r := onKeyDown p e w in
  isUpdatingRef (state_of r) = isUpdatingRef w /\
  initialContentRef (state_of r) = initialContentRef w /\
  (monacoInstance (state_of r) ≫= getModel) = (monacoInstance w ≫= getModel) /\
  (no_dispatch (effects_of r) -> doc (state_of r) = doc w) /\
  (forall err, outcome_of r = Throw err ->
     e = DownArrow /\
     err = RangeError "Position out of range" /\
     effects_of r = [PreventDefault; StopPropagation] /\
     state_of r = w /\
     exists pos,
       getPos p = GetPosFn (Some pos) /\
       (pos + nodeSize (node p) < 0 \/
        content_size (doc w) < pos + nodeSize (node p))).
Proof.
  unfold onKeyDown, on_key, onUpArrow, onLeftArrow, onDownArrow,
    onUpOrLeftArrow, onRightArrow, insertNodeAfter_mounted, tr_insert,
    insertNodeBefore, isFirstNode, no_dispatch.
  run_eff.
  destruct e; cbn; handler_cases;
    repeat split; auto;
    try (intros Hnd; repeat (apply Forall_cons_1 in Hnd as [? Hnd]); cbn in *;
         discriminate);
    try (intros err [=]; subst);
    try discriminate;
    repeat match goal with
           | H : monacoInstance _ = _ |- _ => rewrite H
           end;
    cbn; try congruence.
  all: try (destruct w; reflexivity).
  all: eexists; split; [reflexivity|].
  all: match goal with
       | H : (_ <? 0) || (_ <? _) = true |- _ =>
           apply orb_true_iff in H as [H|H]; apply Z.ltb_lt in H; auto
       end.
Qed.

(** X4. The delete button does not catch: when [nodeAt] raises, the error
    leaves the handler and nothing has been dispatched, and that is the
    only way the handler raises.  When [getPos] is not a function the click
    does nothing.  In no case does it move focus or touch the refs or the
    Monaco instance. *)
Theorem handleDelete_raises_with_nodeAt (p : Props) (w : World) :
  let res := handleDelete p w in
  (getPos p = NotAFunction -> res = (w, [], Ok tt)) /\
  (forall err,
     outcome_of res = Throw err <->
     exists r, getPos p = GetPosFn r /\
               nodeAt (doc w) (pos_result r) = Throw err) /\
  (forall err, outcome_of res = Throw err -> effects_of res = [] /\ state_of res = w) /\
  Forall (fun x => is_focus x = false) (effects_of res) /\
  isUpdatingRef (state_of res) = isUpdatingRef w /\
  initialContentRef (state_of res) = initialContentRef w /\
  monacoInstance (state_of res) = monacoInstance w.
Proof.
  unfold handleDelete. run_eff.
  destruct (getPos p) as [|r] eqn:Hp; cbn.
  { repeat split; try discriminate; auto.
    intros (r & [=] & _). }
  destruct (nodeAt (doc w) (pos_result r)) as [[n|]|err'] eqn:Hn; cbn;
    repeat split; try discriminate; auto;
    try (intros (r' & [= <-] & Hn'); congruence);
    try (intros [= <-]; eauto);
    repeat constructor.
Qed.

(** X5. The change handler never raises: a [getPos] that is not a function
    and an error of [nodeAt] are caught and logged to the console; the
    document is then left alone and the reset of the flag is still
    scheduled. *)
Theorem updateContent_catches (p : Props) (value : option string) (w : World) :
  let res := updateContent p value w in
  outcome_of res = Ok tt /\
  (value_falsy value || isUpdatingRef w = false ->
   forall err,
     (getPos p = NotAFunction /\ err = TypeError "getPos is not a function") \/
     (exists r, getPos p = GetPosFn r /\
                nodeAt (doc w) (pos_result r) = Throw err) ->
     effects_of res =
       [ConsoleError "Error updating code block:" (Some err);
        SetTimeout ResetIsUpdating 0] /\
     doc (state_of res) = doc w /\
     initialContentRef (state_of res) = initialContentRef w).
Proof.
  unfold updateContent. run_eff. split.
  - destruct (value_falsy value || isUpdatingRef w); cbn; [reflexivity|].
    destruct (getPos p) as [|r]; cbn; [reflexivity|].
    destruct (nodeAt (doc w) (pos_result r)) as [[n|]|err]; cbn;
      try reflexivity.
    destruct value; reflexivity.
  - intros Hguard err Herr. rewrite Hguard. cbn.
    destruct Herr as [[Hp ->] | (r & Hp & Hn)]; rewrite Hp; cbn.
    + auto.
    + rewrite Hn. cbn. auto.
Qed.

Lemma updateContent_sets_flag (p : Props) (value : option string) (w : World) :
  value_falsy value || isUpdatingRef w = false ->
  isUpdatingRef (state_of (updateContent p value w)) = true.
Proof.
  intros Hguard. unfold updateContent. run_eff. rewrite Hguard. cbn.
  destruct (getPos p) as [|r]; cbn; [reflexivity|].
  destruct (nodeAt (doc w) (pos_result r)) as [[n|]|err]; cbn;
    try reflexivity.
  destruct value; reflexivity.
Qed.

(** X6. The flag [isUpdatingRef]: a run of the change handler that passes
    the entry guard leaves the flag set and ends by scheduling its reset,
    once and with delay 0, whatever happened in between; a run that the
    guard stops schedules nothing and changes nothing. *)
Theorem updateContent_flag (p : Props) (value : option string) (w : World) :
  let res := updateContent p value w in
  if value_falsy value || isUpdatingRef w then res = (w, [], Ok tt)
  else
    isUpdatingRef (state_of res) = true /\
    exists l,
      effects_of res = l ++ [SetTimeout ResetIsUpdating 0] /\
      Forall (fun x => is_timer x = false) l.
Proof.
  unfold updateContent. run_eff.
  destruct (value_falsy value || isUpdatingRef w); cbn; [reflexivity|].
  destruct (getPos p) as [|r]; cbn.
  { split; [reflexivity|]. eexists [_]. split; [reflexivity|]. repeat constructor. }
  destruct (nodeAt (doc w) (pos_result r)) as [[n|]|err]; cbn.
  - destruct value; cbn.
    + split; [reflexivity|]. eexists [_]. split; [reflexivity|]. repeat constructor.
    + split; [reflexivity|]. exists []. split; [reflexivity|]. constructor.
  - split; [reflexivity|]. eexists [_]. split; [reflexivity|]. repeat constructor.
  - split; [reflexivity|]. eexists [_]. split; [reflexivity|]. repeat constructor.
Qed.

(** X7. What a run of the change handler writes: the Monaco instance is
    never touched; [initialContentRef] and the document change only
    together, in a run that dispatches, and then the ref holds the value
    that was written to the document. *)
Theorem updateContent_writes (p : Props) (value : option string) (w : World) :
  let res := updateContent p value w in
  monacoInstance (state_of res) = monacoInstance w /\
  (no_dispatch (effects_of res) ->
     doc (state_of res) = doc w /\
     initialContentRef (state_of res) = initialContentRef w) /\
  (forall tr, In (Dispatch tr) (effects_of res) ->
     value = Some (initialContentRef (state_of res)) /\
     doc (state_of res) = applyTransaction (doc w) tr /\
     exists from to n,
       tr = [StepReplaceWith from to n] /\
       content n = [schema_text (initialContentRef (state_of res))]).
Proof.
  unfold updateContent, no_dispatch. run_eff.
  destruct (value_falsy value || isUpdatingRef w); cbn.
  { repeat split; auto; absurd_in. }
  destruct (getPos p) as [|r]; cbn.
  { repeat split; auto; absurd_in. }
  destruct (nodeAt (doc w) (pos_result r)) as [[n|]|err]; cbn.
  - destruct value as [v|]; cbn.
    + split; [reflexivity|]. split.
      * intros Hnd. apply Forall_cons_1 in Hnd as [Hd _]. discriminate.
      * intros tr [[= <-]|Hin]; [|absurd_in].
        repeat split. eauto.
    + repeat split; auto; absurd_in.
  - repeat split; auto; absurd_in.
  - repeat split; auto; absurd_in.
Qed.

(** X8. Until the reset scheduled by a run has fired, the change handler
    drops every further value: a second run right after a run that passed
    the guard does nothing at all.  Once the reset has run, the guard lets
    a non-empty value through again. *)
Theorem updateContent_drops_while_updating
    (p : Props) (value value' : option string) (w : World) :
  value_falsy value || isUpdatingRef w = false ->
  let w1 := state_of (updateContent p value w) in
  let w2 := state_of (run_callback ResetIsUpdating w1) in
  updateContent p value' w1 = (w1, [], Ok tt) /\
  isUpdatingRef w2 = false /\
  doc w2 = doc w1 /\ initialContentRef w2 = initialContentRef w1 /\
  (value_falsy value' = false ->
   isUpdatingRef (state_of (updateContent p value' w2)) = true).
Proof.
  intros Hguard w1 w2.
  pose proof (updateContent_sets_flag p value w Hguard) as Hset. fold w1 in Hset.
  split; [|split; [|split; [|split]]].
  - apply updateContent_skips. rewrite Hset. apply orb_true_r.
  - reflexivity.
  - reflexivity.
  - reflexivity.
  - intros Hv. apply updateContent_sets_flag. rewrite Hv. reflexivity.
Qed.

(** X9. The effect that follows [node.textContent] never dispatches and
    never raises, and it pushes a text into Monaco at most once: run again
    on the state it left, it does nothing, also after the reset of the flag
    has fired. *)
Theorem syncFromNode_pushes_once (p : Props) (w : World) :
  let res := syncFromNode p w in
  let w1 := state_of res in
  let w2 := state_of (run_callback ResetIsUpdating w1) in
  outcome_of res = Ok tt /\
  no_dispatch (effects_of res) /\
  doc w1 = doc w /\
  monacoInstance w1 = monacoInstance w /\
  syncFromNode p w1 = (w1, [], Ok tt) /\
  (isUpdatingRef w = false -> syncFromNode p w2 = (w2, [], Ok tt)).
Proof.
  unfold syncFromNode, run_callback, no_dispatch. run_eff.
  destruct (monacoInstance w) as [ed|] eqn:Hm; cbn;
    [destruct (isUpdatingRef w) eqn:Hu; cbn;
     [|destruct (String.eqb (textContent (node p)) (initialContentRef w)) eqn:Ht;
       cbn]|];
    rewrite ?Hm, ?Hu, ?Ht; cbn; rewrite ?String.eqb_refl; cbn;
    repeat split; auto; try discriminate;
    try (rewrite ?Hm, ?Ht; reflexivity);
    repeat constructor.
Qed.

(** X10. No echo: after the change handler has written a value to the
    document, the effect that follows [node.textContent] finds the node's
    text equal to [initialContentRef] and does not push it back into
    Monaco, neither before nor after the reset of the flag. *)
Theorem no_echo_after_update
    (p p' : Props) (v : string) (w : World) (r : option Z) (originalNode : PMNode) :
  value_falsy (Some v) || isUpdatingRef w = false ->
  getPos p = GetPosFn r ->
  nodeAt (doc w) (pos_result r) = Ok (Some originalNode) ->
  textContent (node p') = v ->
  let w1 := state_of (updateContent p (Some v) w) in
  let w2 := state_of (run_callback ResetIsUpdating w1) in
  initialContentRef w1 = v /\
  syncFromNode p' w1 = (w1, [], Ok tt) /\
  syncFromNode p' w2 = (w2, [], Ok tt).
Proof.
  intros Hguard Hp Hn Ht w1 w2. subst w2 w1.
  rewrite (updateContent_replaces p v w r originalNode Hguard Hp Hn).
  unfold syncFromNode, run_callback. run_eff. cbn.
  destruct (monacoInstance w); cbn; rewrite ?Ht, ?String.eqb_refl; auto.
Qed.

(** X11. Focus needs a mounted editor.  Before the editor is mounted the
    ref's [focus] method and the effect on [selected] do nothing.
    [handleEditorMount] stores the instance, registers the key listener
    and, for the first node only, schedules a focus 100 ms later; it leaves
    the document and the refs alone.  From then on [focus] focuses Monaco,
    and so does the effect on [selected] when the node is selected. *)
Theorem focus_needs_mount (p : Props) (w : World) (ed : MonacoEditor) :
  let res := handleEditorMount p ed w in
  let w1 := state_of res in
  (monacoInstance w = None ->
     focus_handle w = (w, [], Ok tt) /\ onSelectedChange p w = (w, [], Ok tt)) /\
  effects_of res =
    RegisterKeyDown :: (if isFirstNode p then [SetTimeout FocusMonaco 100] else []) /\
  w1 = set_monacoInstance (Some ed) w /\
  focus_handle w1 = (w1, [MonacoFocus], Ok tt) /\
  onSelectedChange p w1 = (w1, if selected p then [MonacoFocus] else [], Ok tt) /\
  run_callback FocusMonaco w1 = (w1, [MonacoFocus], Ok tt).
Proof.
  unfold handleEditorMount, focus_handle, onSelectedChange, run_callback.
  run_eff. cbn.
  split; [intros ->; destruct (selected p); auto|].
  destruct (isFirstNode p), (selected p); cbn; auto.
Qed.

(** X12. A click on the wrapper adds a paragraph after the block exactly
    when the wrapper is mounted, the click's target is the wrapper itself,
    [getPos] is a function returning a position, and the pointer is below
    the Monaco element and not below the wrapper; focus then goes into the
    new paragraph.  Every other click does nothing. *)
Theorem handleWrapperClick_below_editor
    (p : Props) (wrapperRef : option Q) (event : ClickEvent) (w : World) :
  let res := handleWrapperClick p wrapperRef event w in
  (forall wrapper_bottom editor_bottom pos,
     wrapperRef = Some wrapper_bottom ->
     target_is_wrapper event = true ->
     editorRect_bottom event = Some editor_bottom ->
     (editor_bottom < clientY event)%Q ->
     (clientY event <= wrapper_bottom)%Q ->
     getPos p = GetPosFn (Some pos) ->
     effects_of res =
       [Dispatch [StepInsert (PNum (pos + nodeSize (node p))) paragraph_create];
        Focus (pos + nodeSize (node p) + 1)]) /\
  (effects_of res <> [] ->
     exists wrapper_bottom editor_bottom pos,
       wrapperRef = Some wrapper_bottom /\
       target_is_wrapper event = true /\
       editorRect_bottom event = Some editor_bottom /\
       (editor_bottom < clientY event)%Q /\
       (clientY event <= wrapper_bottom)%Q /\
       getPos p = GetPosFn (Some pos)) /\
  (effects_of res = [] -> res = (w, [], Ok tt)).
Proof.
  unfold handleWrapperClick, insertNodeAfter, is_function. run_eff.
  split; [|split].
  - intros wb eb pos -> Ht Hrect Hlt Hle Hp.
    rewrite Ht, Hp, Hrect. cbn.
    apply Qle_bool_iff in Hle. rewrite Hle.
    assert (Hn : Qle_bool (clientY event) eb = false).
    { destruct (Qle_bool (clientY event) eb) eqn:E; [|reflexivity].
      apply Qle_bool_iff in E. exfalso. exact (Qlt_not_le _ _ Hlt E). }
    rewrite Hn. reflexivity.
  - destruct wrapperRef as [wb|]; [|intros []; reflexivity].
    destruct (target_is_wrapper event); cbn; [|intros []; reflexivity].
    destruct (getPos p) as [|[pos|]] eqn:Hp; cbn; try (intros []; reflexivity).
    + destruct (editorRect_bottom event) as [eb|]; [|intros []; reflexivity].
      destruct (Qle_bool (clientY event) eb) eqn:E1; cbn;
        [intros []; reflexivity|].
      destruct (Qle_bool (clientY event) wb) eqn:E2; cbn;
        [|intros []; reflexivity].
      intros _. exists wb, eb, pos. repeat split; auto.
      * apply Qnot_le_lt. intros Hle. apply Qle_bool_iff in Hle. congruence.
      * apply Qle_bool_iff. exact E2.
    + destruct (editorRect_bottom event) as [eb|]; [|intros []; reflexivity].
      destruct (negb (Qle_bool (clientY event) eb) && Qle_bool (clientY event) wb);
        intros []; reflexivity.
  - destruct wrapperRef as [wb|]; [|reflexivity].
    destruct (target_is_wrapper event); cbn; [|reflexivity].
    destruct (getPos p) as [|[pos|]] eqn:Hp; cbn; try reflexivity;
      destruct (editorRect_bottom event) as [eb|]; try reflexivity;
      destruct (negb (Qle_bool (clientY event) eb) && Qle_bool (clientY event) wb);
      cbn; try reflexivity; discriminate.
Qed.

Lemma find_all_false {X : Type} (f : X -> bool) (l : list X) :
  (forall x, In x l -> f x = false) -> List.find f l = None.
Proof.
  induction l as [|x l IH]; intros H; [reflexivity|]. cbn.
  rewrite (H x (or_introl eq_refl)). apply IH. intros y Hy. apply H. now right.
Qed.

(** X13. The selector and Monaco always get the same language value.  For
    a node whose language is one of the thirteen, the selector shows that
    language's option.  A language string outside the list is not checked:
    Monaco gets it as it is, while no option of the selector has that value
    and the selector shows its first option, javascript. *)
Theorem render_language (p : Props) :
  select_value (render p) = editor_language (render p) /\
  editor_defaultLanguage (render p) = editor_language (render p) /\
  (forall l : ProgrammingLanguage,
     prop (attrs (node p)) "language" = JStr (language_name l) ->
     editor_language (render p) = JStr (language_name l) /\
     shown_option (render p) =
       Some (mkOption (language_name l) (language_name l) (language_name l))) /\
  (forall s : string,
     prop (attrs (node p)) "language" = JStr s ->
     s <> ""%string ->
     (forall l : ProgrammingLanguage, language_name l <> s) ->
     editor_language (render p) = JStr s /\
     Forall (fun o => JStr (option_value o) <> select_value (render p))
       (select_options (render p)) /\
     shown_option (render p) =
       Some (mkOption "javascript" "javascript" "javascript")).
Proof.
  split; [reflexivity|]. split; [reflexivity|]. split.
  - intros l Hl.
    assert (Hlang : language p = JStr (language_name l)).
    { unfold language, js_or. rewrite Hl. destruct l; reflexivity. }
    unfold shown_option, render. cbn [select_value select_options editor_language].
    rewrite Hlang. split; [reflexivity|]. destruct l; reflexivity.
  - intros s Hs Hne Hout.
    assert (Hlang : language p = JStr s).
    { unfold language, js_or. rewrite Hs. cbn.
      destruct (String.eqb s "") eqn:E; [|reflexivity].
      apply String.eqb_eq in E. contradiction. }
    assert (Hnone :
      forall o, In o (select_options (render p)) ->
                JStr (option_value o) <> JStr s).
    { intros o Ho. unfold render in Ho. cbn [select_options] in Ho.
      apply in_map_iff in Ho as (l & <- & _). cbn.
      intros [= Heq]. exact (Hout l Heq). }
    split; [exact Hlang|]. split.
    + apply Forall_forall. intros o Ho%list_elem_of_In.
      change (select_value (render p)) with (language p). rewrite Hlang.
      apply Hnone, Ho.
    + unfold shown_option.
      change (select_value (render p)) with (language p). rewrite Hlang.
      rewrite find_all_false; [reflexivity|].
      intros o Ho. apply bool_decide_eq_false_2, Hnone, Ho.
Qed.

End ComponentMore.

(** * Further properties of [debounce] *)

Lemma last_Some_cons {X : Type} (l : list X) (x : X) :
  last (x :: l) = Some (List.last l x).
Proof.
  revert x. induction l as [|y l IH]; intros x; [reflexivity|].
  change (last (x :: y :: l)) with (last (y :: l)).
  rewrite IH, (last_cons_default l y x). reflexivity.
Qed.

Section DebounceMore.
Context {A St : Type}.
Variable func : A -> St -> St.
Variable wait : Z.

Lemma delay_nonneg : 0 <= delay wait.
Proof. unfold delay. lia. Qed.

Lemma pending_fires (h : Host A St) (t T : Z) (a : A)
    (inv : list (Z * A)) (st : St) :
  pending wait h t a inv st -> t + delay wait <= T ->
  advance func T h =
    mkHost A St T [] (next_id h) None (func a st) (inv ++ [(t + delay wait, a)]).
Proof.
  intros (id & Htm & Hto & Hid & Hnext & Hnow & Hinv & Htg) HT.
  pose proof delay_nonneg.
  assert (E : (t + delay wait <=? T) = true) by (apply Z.leb_le; lia).
  unfold advance. rewrite Htm. cbn [length run_due]. rewrite Htm.
  cbn [earliest due]. rewrite E. unfold fire, later. rewrite Htm. cbn.
  rewrite decide_False by (intros Hne; apply Hne; reflexivity). cbn.
  rewrite Hnow, Hinv, Htg. cbn.
  rewrite (Z.max_r t) by lia. rewrite Z.max_r by lia. reflexivity.
Qed.

Lemma pending_waits (h : Host A St) (t T : Z) (a : A)
    (inv : list (Z * A)) (st : St) :
  pending wait h t a inv st -> t <= T < t + delay wait ->
  advance func T h =
    mkHost A St T (timers h) (next_id h) (timeout h) (target h) (invocations h).
Proof.
  intros (id & Htm & Hto & Hid & Hnext & Hnow & Hinv & Htg) HT.
  assert (E : (t + delay wait <=? T) = false) by (apply Z.leb_gt; lia).
  unfold advance. rewrite Htm. cbn [length run_due]. rewrite Htm.
  cbn [earliest due]. rewrite E, Htm, Hnow. f_equal. lia.
Qed.

(** A call made while one is pending: the pending one has run if it was
    due, and is cancelled if not; the new one is pending. *)
Lemma call_while_pending (h : Host A St) (t t' : Z) (a a' : A)
    (inv : list (Z * A)) (st : St) :
  pending wait h t a inv st -> t <= t' ->
  (if t + delay wait <=? t'
   then pending wait (call_at func wait (t', a') h) t' a'
          (inv ++ [(t + delay wait, a)]) (func a st)
   else pending wait (call_at func wait (t', a') h) t' a' inv st) /\
  Forall (at_most_one_pending (A:=A) (St:=St))
    (firstn 3 (history func wait [(t', a')] h)).
Proof.
  intros Hpending Ht'.
  destruct (t + delay wait <=? t') eqn:E.
  - apply Z.leb_le in E.
    pose proof (pending_fires h t t' a inv st Hpending E) as Hadv.
    destruct Hpending as (id & Htm & Hto & Hid & Hnext & Hnow & Hinv & Htg).
    split.
    + exists (next_id h). unfold call_at, executedFunction. cbn [fst snd].
      rewrite Hadv. cbn. repeat split; auto; try lia.
    + unfold history, call_at, executedFunction, at_most_one_pending.
      cbn [fst snd firstn]. rewrite Hadv. cbn.
      repeat (apply Forall_cons_2; [cbn; rewrite ?Htm; cbn; lia|]).
      apply Forall_nil_2.
  - apply Z.leb_gt in E.
    pose proof (pending_waits h t t' a inv st Hpending (conj Ht' E)) as Hadv.
    destruct Hpending as (id & Htm & Hto & Hid & Hnext & Hnow & Hinv & Htg).
    assert (Hid' : (id =? 0) = false) by (apply Z.eqb_neq; exact Hid).
    split.
    + exists (next_id h). unfold call_at, executedFunction. cbn [fst snd].
      rewrite Hadv. cbn. rewrite Hto. cbn. rewrite Hid'. cbn.
      rewrite Htm. cbn. rewrite decide_False by (intros Hne; apply Hne; reflexivity).
      cbn. repeat split; auto; try lia.
    + unfold history, call_at, executedFunction, at_most_one_pending.
      cbn [fst snd firstn]. rewrite Hadv. cbn. rewrite Hto. cbn. rewrite Hid'. cbn.
      repeat (apply Forall_cons_2;
              [unfold clearTimeout; cbn; rewrite ?Htm; cbn;
               try (rewrite decide_False by (intros Hne; apply Hne; reflexivity));
               cbn; lia|]).
      apply Forall_nil_2.
Qed.

Lemma trailing_cons (t t' : Z) (a a' : A) (cs : list (Z * A)) :
  trailing wait ((t, a) :: (t', a') :: cs) =
    if t + delay wait <=? t'
    then (t + delay wait, a) :: trailing wait ((t', a') :: cs)
    else trailing wait ((t', a') :: cs).
Proof. reflexivity. Qed.

Lemma trailing_run (cs : list (Z * A)) :
  forall (h : Host A St) (t : Z) (a : A) (inv : list (Z * A)) (st : St) (T : Z),
    pending wait h t a inv st ->
    ascending t cs ->
    (List.last cs (t, a)).1 + delay wait <= T ->
    (exists n,
       advance func T (run_calls func wait cs h) =
         mkHost A St T [] n None
           (apply_runs func (trailing wait ((t, a) :: cs)) st)
           (inv ++ trailing wait ((t, a) :: cs))) /\
    Forall (at_most_one_pending (A:=A) (St:=St)) (history func wait cs h).
Proof.
  induction cs as [|[t' a'] cs IH]; intros h t a inv st T Hpending Hasc HT.
  - cbn in HT. split.
    + exists (next_id h). cbn [run_calls fold_left].
      rewrite (pending_fires h t T a inv st Hpending HT). reflexivity.
    + apply Forall_cons_2; [|apply Forall_nil_2].
      destruct Hpending as (id & Htm & _). unfold at_most_one_pending.
      rewrite Htm. cbn. lia.
  - destruct Hasc as [Ht' Hasc]. cbn [fst] in Ht', Hasc.
    rewrite last_cons_default in HT.
    destruct (call_while_pending h t t' a a' inv st Hpending Ht') as [Hnext Hhist].
    change (run_calls func wait ((t', a') :: cs) h)
      with (run_calls func wait cs (call_at func wait (t', a') h)).
    rewrite trailing_cons.
    assert (Hhist' :
      Forall (at_most_one_pending (A:=A) (St:=St))
        (history func wait cs (call_at func wait (t', a') h)) ->
      Forall (at_most_one_pending (A:=A) (St:=St))
        (history func wait ((t', a') :: cs) h)).
    { intros Hrest. cbn [history]. cbn [history firstn] in Hhist.
      inversion Hhist as [|? ? H1 Hhist1]; subst.
      inversion Hhist1 as [|? ? H2 Hhist2]; subst.
      inversion Hhist2 as [|? ? H3 _]; subst.
      repeat (apply Forall_cons_2; [assumption|]). exact Hrest. }
    destruct (t + delay wait <=? t').
    + destruct (IH _ _ _ _ _ T Hnext Hasc HT) as [(n & Hrun) Hrest].
      split; [|exact (Hhist' Hrest)].
      exists n. rewrite Hrun. rewrite <- app_assoc. reflexivity.
    + destruct (IH _ _ _ _ _ T Hnext Hasc HT) as [(n & Hrun) Hrest].
      split; [|exact (Hhist' Hrest)].
      exists n. exact Hrun.
Qed.

(** X14. Which calls of a debounced function get to run, for a [wait]
    of at least one millisecond and below 2^31 and any sequence of calls in
    time order: a call runs, [wait] after it was made, unless the next call
    comes before that; the last call always runs.  [func] runs for exactly
    these calls, in this order, with their arguments; and whenever the
    calls come, at most one timer is pending. *)
Theorem debounce_trailing_edge
    (t0 : Z) (st : St) (cs : list (Z * A)) (T : Z) :
  0 < wait < 2 ^ 31 ->
  ascending t0 cs ->
  (forall c, last cs = Some c -> c.1 + wait <= T) ->
  let h := advance func T (run_calls func wait cs (fresh_host t0 st)) in
  invocations h = trailing wait cs /\
  target h = apply_runs func (trailing wait cs) st /\
  timers h = [] /\
  Forall (at_most_one_pending (A:=A) (St:=St))
    (history func wait cs (fresh_host t0 st)).
Proof.
  intros Hwait Hasc HT.
  assert (Hdelay : delay wait = wait) by (unfold delay; lia).
  rewrite <- Hdelay in HT. clear Hdelay Hwait.
  destruct cs as [|[t a] cs].
  - cbn. repeat split. apply Forall_cons_2; [|apply Forall_nil_2].
    unfold at_most_one_pending. cbn. lia.
  - destruct Hasc as [Ht Hasc]. cbn [fst] in Ht, Hasc.
    specialize (HT _ (last_Some_cons cs (t, a))).
    assert (Hfirst : pending wait (call_at func wait (t, a) (fresh_host t0 st)) t a [] st).
    { exists 1. unfold call_at, executedFunction, advance, fresh_host. cbn.
      rewrite !Z.max_r by lia. repeat split; auto; lia. }
    destruct (trailing_run cs _ _ _ _ _ T Hfirst Hasc HT) as [(n & Hrun) Hrest].
    change (run_calls func wait ((t, a) :: cs) (fresh_host t0 st))
      with (run_calls func wait cs (call_at func wait (t, a) (fresh_host t0 st))).
    cbv zeta. rewrite Hrun. cbn [invocations target timers app].
    repeat split.
    cbn [history].
    repeat (apply Forall_cons_2;
            [unfold at_most_one_pending, advance, fresh_host; cbn; lia|]).
    exact Hrest.
Qed.

End DebounceMore.

(** ** Several debounced functions *)

Lemma NoDup_map_inj {X Y : Type} (f : X -> Y) (l : list X) (x y : X) :
  NoDup (map f l) -> x ∈ l -> y ∈ l -> f x = f y -> x = y.
Proof.
  induction l as [|z l IH]; intros Hnd Hx Hy Hf; [inversion Hx|].
  cbn in Hnd. apply NoDup_cons in Hnd as [Hz Hnd].
  apply elem_of_cons in Hx as [->|Hx]; apply elem_of_cons in Hy as [->|Hy].
  - reflexivity.
  - exfalso. apply Hz. rewrite Hf. apply list_elem_of_In, in_map, list_elem_of_In, Hy.
  - exfalso. apply Hz. rewrite <- Hf. apply list_elem_of_In, in_map, list_elem_of_In, Hx.
  - auto.
Qed.

Section DebounceInstancesFacts.
Context {A St : Type}.
Variable funcs : nat -> A -> St -> St.
Variable waits : nat -> Z.

Local Abbreviation owner tm := (timer_args tm).1.

(** Removing the timer of a handle leaves the timers of the functions that
    do not own it. *)
Lemma filter_owner_clear (l : list (Timer (nat * A))) (j : nat) (id : Z) :
  (forall tm, tm ∈ l -> timer_id tm = id -> owner tm <> j) ->
  filter (fun t => owner t = j) (filter (fun t => timer_id t ≠ id) l) =
  filter (fun t => owner t = j) l.
Proof.
  induction l as [|x l IH]; intros H; [reflexivity|].
  rewrite (filter_cons (fun t => timer_id t ≠ id)).
  rewrite (filter_cons (fun t => owner t = j) x l).
  assert (IH' := IH (fun tm Htm => H tm (proj2 (elem_of_cons l tm x) (or_intror Htm)))).
  destruct (decide (timer_id x ≠ id)) as [Hne|Heq].
  - rewrite filter_cons. destruct (decide (owner x = j)); rewrite IH'; reflexivity.
  - apply dec_stable in Heq.
    destruct (decide (owner x = j)) as [Hown|Hown]; [|exact IH'].
    exfalso. exact (H x (proj2 (elem_of_cons l x x) (or_introl eq_refl)) Heq Hown).
Qed.

Lemma ids_of_filter (P : Timer (nat * A) -> Prop) `{!forall t, Decision (P t)}
    (l : list (Timer (nat * A))) (z : Z) :
  z ∈ map timer_id (filter P l) -> z ∈ map timer_id l.
Proof.
  intros Hz%list_elem_of_In%in_map_iff. destruct Hz as (tm & <- & Htm%list_elem_of_In).
  apply list_elem_of_filter in Htm as [_ Htm].
  apply list_elem_of_In, in_map, list_elem_of_In, Htm.
Qed.

Lemma NoDup_ids_filter (P : Timer (nat * A) -> Prop) `{!forall t, Decision (P t)}
    (l : list (Timer (nat * A))) :
  NoDup (map timer_id l) -> NoDup (map timer_id (filter P l)).
Proof.
  induction l as [|x l IH]; intros Hnd; [constructor|].
  cbn in Hnd. apply NoDup_cons in Hnd as [Hx Hnd].
  rewrite filter_cons. destruct (decide (P x)); [|auto].
  cbn. apply NoDup_cons. split; [|auto].
  intros Hin. apply Hx. eapply ids_of_filter, Hin.
Qed.

(** The timer a closure's [timeout] names is the only one with that handle,
    and it is a timer of that closure. *)
Lemma handle_owner (h : Hosts A St) (i : nat) (id : Z) (tm : Timer (nat * A)) :
  hosts_ok h -> htimeout h i = Some id ->
  tm ∈ htimers h -> timer_id tm = id -> owner tm = i /\ timers_of i h = [tm].
Proof.
  intros (_ & _ & Hnd & Hvars) Hto Htm Hid.
  specialize (Hvars i). rewrite Hto in Hvars. destruct Hvars as (d & a & Hown).
  assert (Hin : mkTimer id d (i, a) ∈ htimers h).
  { assert (H : mkTimer id d (i, a) ∈ timers_of i h)
      by (rewrite Hown; apply elem_of_cons; auto).
    apply list_elem_of_filter in H as [_ H]. exact H. }
  assert (tm = mkTimer id d (i, a))
    by (apply (NoDup_map_inj timer_id (htimers h)); auto).
  subst tm. auto.
Qed.

Lemma handle_positive (h : Hosts A St) (i : nat) (id : Z) :
  hosts_ok h -> htimeout h i = Some id -> handle_truthy (htimeout h i) = Some id.
Proof.
  intros Hok Hto. rewrite Hto. cbn.
  destruct Hok as (_ & Hrange & _ & Hvars).
  specialize (Hvars i). rewrite Hto in Hvars. destruct Hvars as (d & a & Hown).
  assert (Hin : mkTimer id d (i, a) ∈ htimers h).
  { assert (H : mkTimer id d (i, a) ∈ timers_of i h)
      by (rewrite Hown; apply elem_of_cons; auto).
    apply list_elem_of_filter in H as [_ H]. exact H. }
  rewrite Forall_forall in Hrange. specialize (Hrange _ Hin). cbn in Hrange.
  destruct (id =? 0) eqn:E; [apply Z.eqb_eq in E; lia|reflexivity].
Qed.

(** Clearing the timer of a handle: the timers of the closure that holds
    the handle are gone, those of the others stay. *)
Lemma clear_own_timer (h : Hosts A St) (i : nat) (id : Z) :
  hosts_ok h -> htimeout h i = Some id ->
  timers_of i (clearTimeout_in id h) = [] /\
  forall j, j <> i -> timers_of j (clearTimeout_in id h) = timers_of j h.
Proof.
  intros Hok Hto. split.
  - apply elem_of_nil_inv. intros tm Htm.
    unfold timers_of, clearTimeout_in in Htm. cbn in Htm.
    apply list_elem_of_filter in Htm as [Hown Htm].
    apply list_elem_of_filter in Htm as [Hne Htm].
    destruct (Hok) as (_ & _ & _ & Hvars).
    specialize (Hvars i). rewrite Hto in Hvars. destruct Hvars as (d & a & Hlist).
    assert (Hin : tm ∈ timers_of i h)
      by (apply list_elem_of_filter; auto).
    rewrite Hlist in Hin. apply list_elem_of_singleton in Hin. subst tm.
    apply Hne. reflexivity.
  - intros j Hj. unfold timers_of, clearTimeout_in. cbn.
    apply filter_owner_clear. intros tm Htm Hid Hown.
    destruct (handle_owner h i id tm Hok Hto Htm Hid) as [Hi _]. congruence.
Qed.

(** The state after the [if (timeout) clearTimeout(timeout)] of closure [i]. *)
Lemma after_clear (h : Hosts A St) (i : nat) :
  hosts_ok h ->
  let h1 :=
    match handle_truthy (htimeout h i) with
    | Some id => clearTimeout_in id h
    | None => h
    end in
  hnext_id h1 = hnext_id h /\ htimeout h1 = htimeout h /\
  Forall (fun t => 0 < timer_id t < hnext_id h) (htimers h1) /\
  NoDup (map timer_id (htimers h1)) /\
  timers_of i h1 = [] /\
  forall j, j <> i -> timers_of j h1 = timers_of j h.
Proof.
  intros Hok. destruct (htimeout h i) as [id|] eqn:Hto.
  - rewrite <- Hto, (handle_positive h i id Hok Hto). cbn zeta.
    destruct (clear_own_timer h i id Hok Hto) as [Hown Hothers].
    destruct Hok as (_ & Hrange & Hnd & _).
    repeat split; auto.
    + cbn. rewrite Forall_forall in *. intros tm Htm.
      apply list_elem_of_filter in Htm as [_ Htm]. auto.
    + cbn. apply NoDup_ids_filter, Hnd.
  - cbn. destruct Hok as (_ & Hrange & Hnd & Hvars).
    specialize (Hvars i). rewrite Hto in Hvars. repeat split; auto.
Qed.

(** What a call of the debounced function [i] does to the host. *)
Lemma executedFunction_of_effect
    (h : Hosts A St) (i : nat) (args : A) :
  hosts_ok h ->
  let h' := executedFunction_of waits i args h in
  hosts_ok h' /\
  timers_of i h' =
    [mkTimer (hnext_id h) (hnow h + Z.max 0 (waits i)) (i, args)] /\
  htimeout h' i = Some (hnext_id h) /\
  (forall j, j <> i ->
     timers_of j h' = timers_of j h /\ htimeout h' j = htimeout h j) /\
  hinvocations h' = hinvocations h /\ htarget h' = htarget h.
Proof.
  intros Hok h'.
  destruct (after_clear h i Hok) as (Hnext & Hto & Hrange & Hnd & Hown & Hothers).
  assert (Hpos : 0 < hnext_id h) by apply Hok.
  subst h'. unfold executedFunction_of.
  set (h1 := match handle_truthy (htimeout h i) with
             | Some id => clearTimeout_in id h
             | None => h
             end) in *.
  assert (Hnow : hnow h1 = hnow h)
    by (subst h1; destruct (handle_truthy (htimeout h i)); reflexivity).
  assert (Hinv : hinvocations h1 = hinvocations h)
    by (subst h1; destruct (handle_truthy (htimeout h i)); reflexivity).
  assert (Htg : htarget h1 = htarget h)
    by (subst h1; destruct (handle_truthy (htimeout h i)); reflexivity).
  assert (Htimers : forall j,
    timers_of j
      (mkHosts A St (hnow h1)
         (htimers h1 ++ [mkTimer (hnext_id h1) (hnow h1 + Z.max 0 (waits i)) (i, args)])
         (hnext_id h1 + 1) (set_timeout_of i (Some (hnext_id h1)) (htimeout h1))
         (htarget h1) (hinvocations h1)) =
    timers_of j h1 ++
      (if decide (i = j)
       then [mkTimer (hnext_id h1) (hnow h1 + Z.max 0 (waits i)) (i, args)]
       else [])).
  { intros j. unfold timers_of. cbn [htimers]. rewrite filter_app.
    rewrite filter_cons, filter_nil. cbn. reflexivity. }
  split; [|split; [|split; [|split; [|split]]]].
  - split; [cbn; lia|]. split; [|split].
    + cbn [htimers hnext_id]. apply Forall_app. split.
      * rewrite Hnext. eapply Forall_impl; [exact Hrange|].
        cbn. intros tm ?. lia.
      * apply Forall_cons_2; [cbn; lia|apply Forall_nil_2].
    + cbn [htimers]. rewrite map_app. cbn. apply NoDup_app.
      split; [exact Hnd|]. split; [|apply NoDup_singleton].
      intros z Hz Hz'. apply list_elem_of_singleton in Hz'. subst z.
      apply list_elem_of_In, in_map_iff in Hz as (tm & Hid & Htm%list_elem_of_In).
      rewrite Forall_forall in Hrange. specialize (Hrange tm Htm). lia.
    + intros j. rewrite Htimers. cbn [htimeout]. unfold set_timeout_of.
      destruct (Nat.eqb j i) eqn:E.
      * apply Nat.eqb_eq in E. subst j. rewrite Hown, decide_True by reflexivity.
        cbn. eauto.
      * apply Nat.eqb_neq in E. rewrite decide_False by congruence.
        rewrite app_nil_r, (Hothers j E), Hto.
        destruct Hok as (_ & _ & _ & Hvars). apply Hvars.
  - rewrite Htimers, Hown, decide_True by reflexivity. cbn.
    rewrite Hnext, Hnow. reflexivity.
  - cbn. unfold set_timeout_of. rewrite Nat.eqb_refl, Hnext. reflexivity.
  - intros j Hj. split.
    + rewrite Htimers, decide_False by congruence.
      rewrite app_nil_r. apply Hothers, Hj.
    + cbn. unfold set_timeout_of.
      apply Nat.eqb_neq in Hj. rewrite Hj, Hto. reflexivity.
  - cbn. exact Hinv.
  - cbn. exact Htg.
Qed.

Lemma executedFunction_of_frame_ok (h : Hosts A St) (i : nat) (args : A) :
  hosts_ok h -> hosts_ok (executedFunction_of waits i args h).
Proof. intros Hok. apply (executedFunction_of_effect h i args Hok). Qed.

(** X16. Debounced functions do not debounce each other.  In a host where
    handles are not reused, a call of one debounced function cancels at
    most its own pending timer and leaves it with exactly one, for this
    call; the pending timers and the [timeout] variables of all other
    debounced functions are untouched, [func] is not run, and handles stay
    not reused. *)
Theorem executedFunction_of_frame
    (h : Hosts A St) (i : nat) (args : A) :
  hosts_ok h ->
  let h' := executedFunction_of waits i args h in
  hosts_ok h' /\
  timers_of i h' =
    [mkTimer (hnext_id h) (hnow h + Z.max 0 (waits i)) (i, args)] /\
  htimeout h' i = Some (hnext_id h) /\
  (forall j, j <> i ->
     timers_of j h' = timers_of j h /\ htimeout h' j = htimeout h j) /\
  hinvocations h' = hinvocations h /\ htarget h' = htarget h.
Proof.
  intros Hok. exact (executedFunction_of_effect h i args Hok).
Qed.

Lemma fire_in_ok (h : Hosts A St) (tm : Timer (nat * A)) :
  hosts_ok h -> tm ∈ htimers h -> hosts_ok (fire_in funcs tm h).
Proof.
  intros Hok Htm.
  assert (Hto : htimeout h (owner tm) = Some (timer_id tm)).
  { destruct (Hok) as (_ & _ & _ & Hvars). specialize (Hvars (owner tm)).
    assert (Hin : tm ∈ timers_of (owner tm) h)
      by (apply list_elem_of_filter; auto).
    destruct (htimeout h (owner tm)) as [id|].
    - destruct Hvars as (d & a & Hlist). rewrite Hlist in Hin.
      apply list_elem_of_singleton in Hin.
      apply (f_equal timer_id) in Hin. cbn in Hin. congruence.
    - rewrite Hvars in Hin. inversion Hin. }
  destruct (clear_own_timer h _ _ Hok Hto) as [Hown Hothers].
  destruct Hok as (Hpos & Hrange & Hnd & Hvars).
  unfold fire_in, later_of. split; [exact Hpos|]. split; [|split].
  - cbn. rewrite Forall_forall in *. intros x Hx.
    apply list_elem_of_filter in Hx as [_ Hx]. auto.
  - cbn. apply NoDup_ids_filter, Hnd.
  - intros j. specialize (Hvars j).
    unfold timers_of, clearTimeout_in in *. cbn [htimers htimeout] in *.
    unfold set_timeout_of.
    destruct (Nat.eqb j (owner tm)) eqn:E.
    + apply Nat.eqb_eq in E. subst j. exact Hown.
    + apply Nat.eqb_neq in E. rewrite (Hothers j E). exact Hvars.
Qed.

Lemma run_due_in_ok (t : Z) (fuel : nat) :
  forall h : Hosts A St, hosts_ok h -> hosts_ok (run_due_in funcs fuel t h).
Proof.
  induction fuel as [|fuel IH]; intros h Hok; [exact Hok|]. cbn.
  destruct (earliest (htimers h)) as [tm|] eqn:E; [|exact Hok].
  destruct (due tm <=? t); [|exact Hok].
  apply IH, fire_in_ok; [exact Hok|]. apply (earliest_Some _ _ E).
Qed.

Lemma advance_in_ok (t : Z) (h : Hosts A St) :
  hosts_ok h -> hosts_ok (advance_in funcs t h).
Proof.
  intros Hok. pose proof (run_due_in_ok t (length (htimers h)) h Hok) as H.
  exact H.
Qed.

(** X17. However several debounced functions are called and time passes,
    each of them has at most one timer pending, and its [timeout] variable
    is [null] exactly when it has none. *)
Theorem one_pending_per_function (h : Hosts A St) (i : nat) :
  reachable funcs waits h ->
  (length (timers_of i h) <= 1)%nat /\
  (htimeout h i = None <-> timers_of i h = []).
Proof.
  intros Hreach.
  assert (Hok : hosts_ok h).
  { induction Hreach as [t0 st|h j args _ IH|h t _ IH].
    - split; [cbn; lia|]. split; [constructor|]. split; [constructor|].
      intros j. reflexivity.
    - apply executedFunction_of_frame_ok, IH.
    - apply advance_in_ok, IH. }
  destruct Hok as (_ & _ & _ & Hvars). specialize (Hvars i).
  destruct (htimeout h i) as [id|].
  - destruct Hvars as (d & a & ->). cbn. split; [lia|]. split; discriminate.
  - rewrite Hvars. cbn. split; [lia|]. split; reflexivity.
Qed.

(** X18. Two debounced functions, each with a [wait] of at least one
    millisecond and below 2^31, called one after the other both run, each
    [wait] after its own call, however close the two calls are: the second
    call does not cancel the timer of the first. *)
Theorem two_functions_both_run
    (i j : nat) (a1 a2 : A) (t0 t1 t2 T : Z) (st : St) :
  i <> j ->
  0 < waits i < 2 ^ 31 -> 0 < waits j < 2 ^ 31 ->
  t0 <= t1 -> t1 <= t2 ->
  let d1 := waits i in
  let d2 := waits j in
  t1 + d1 <= T -> t2 + d2 <= T ->
  let h :=
    advance_in funcs T
      (executedFunction_of waits j a2
         (advance_in funcs t2
            (executedFunction_of waits i a1
               (advance_in funcs t1 (fresh_hosts t0 st))))) in
  htimers h = [] /\
  hinvocations h =
    (if t2 + d2 <? t1 + d1
     then [(t2 + d2, (j, a2)); (t1 + d1, (i, a1))]
     else [(t1 + d1, (i, a1)); (t2 + d2, (j, a2))]) /\
  htarget h =
    (if t2 + d2 <? t1 + d1
     then funcs i a1 (funcs j a2 st)
     else funcs j a2 (funcs i a1 st)).
Proof.
  intros Hij Hwi Hwj Ht0 Ht1 d1 d2 HT1 HT2 h. subst h.
  assert (Hd1 : 0 <= d1) by (subst d1; lia).
  assert (Hd2 : 0 <= d2) by (subst d2; lia).
  assert (Hm1 : Z.max 0 (waits i) = d1) by (subst d1; lia).
  assert (Hm2 : Z.max 0 (waits j) = d2) by (subst d2; lia).
  assert (Hji : Nat.eqb j i = false) by (apply Nat.eqb_neq; congruence).
  assert (E1' : (t1 + d1 <=? T) = true) by (apply Z.leb_le; lia).
  assert (E2' : (t2 + d2 <=? T) = true) by (apply Z.leb_le; lia).
  set (tm1 := mkTimer 1 (t1 + d1) (i, a1)).
  set (tm2 := mkTimer 2 (t2 + d2) (j, a2)).
  set (v1 := set_timeout_of i (Some 1) (fun _ : nat => None)).
  assert (Hcall1 :
    executedFunction_of waits i a1 (advance_in funcs t1 (fresh_hosts t0 st)) =
    mkHosts A St t1 [tm1] 2 v1 st []).
  { unfold executedFunction_of, advance_in, fresh_hosts. cbn.
    rewrite Hm1, Z.max_r by lia. reflexivity. }
  rewrite Hcall1. clear Hcall1.
  destruct (t1 + d1 <=? t2) eqn:E1.
  - apply Z.leb_le in E1.
    assert (E3 : (t2 + d2 <? t1 + d1) = false) by (apply Z.ltb_ge; lia).
    assert (Hadv :
      advance_in funcs t2 (mkHosts A St t1 [tm1] 2 v1 st []) =
      mkHosts A St t2 [] 2 (set_timeout_of i None v1) (funcs i a1 st)
        [(t1 + d1, (i, a1))]).
    { unfold advance_in. cbn [htimers length run_due_in earliest due tm1].
      assert (E : (t1 + d1 <=? t2) = true) by (apply Z.leb_le; lia).
      rewrite E. unfold fire_in, later_of. cbn.
      rewrite decide_False by (intros Hne; apply Hne; reflexivity). cbn.
      rewrite (Z.max_r t1) by lia. rewrite Z.max_r by lia. reflexivity. }
    rewrite Hadv. clear Hadv.
    assert (Hcall2 :
      executedFunction_of waits j a2
        (mkHosts A St t2 [] 2 (set_timeout_of i None v1) (funcs i a1 st)
           [(t1 + d1, (i, a1))]) =
      mkHosts A St t2 [tm2] 3
        (set_timeout_of j (Some 2) (set_timeout_of i None v1))
        (funcs i a1 st) [(t1 + d1, (i, a1))]).
    { assert (Hvar : set_timeout_of i None v1 j = None)
        by (unfold v1, set_timeout_of; rewrite Hji; reflexivity).
      unfold executedFunction_of. cbn [htimeout]. rewrite Hvar, Hm2. reflexivity. }
    rewrite Hcall2. clear Hcall2.
    unfold advance_in. subst tm2.
    cbn [htimers length run_due_in earliest due].
    rewrite E2'. unfold fire_in, later_of. cbn.
    rewrite decide_False by (intros Hne; apply Hne; reflexivity). cbn.
    rewrite (Z.max_r t2) by lia. rewrite E3. auto.
  - apply Z.leb_gt in E1.
    assert (Hadv :
      advance_in funcs t2 (mkHosts A St t1 [tm1] 2 v1 st []) =
      mkHosts A St t2 [tm1] 2 v1 st []).
    { unfold advance_in. cbn [htimers length run_due_in earliest due tm1].
      assert (E : (t1 + d1 <=? t2) = false) by (apply Z.leb_gt; lia).
      rewrite E. cbn. rewrite Z.max_r by lia. reflexivity. }
    rewrite Hadv. clear Hadv.
    assert (Hcall2 :
      executedFunction_of waits j a2 (mkHosts A St t2 [tm1] 2 v1 st []) =
      mkHosts A St t2 [tm1; tm2] 3 (set_timeout_of j (Some 2) v1) st []).
    { assert (Hvar : v1 j = None)
        by (unfold v1, set_timeout_of; rewrite Hji; reflexivity).
      unfold executedFunction_of. cbn [htimeout]. rewrite Hvar, Hm2. reflexivity. }
    rewrite Hcall2. clear Hcall2.
    unfold advance_in. subst tm1 tm2.
    cbn [htimers length run_due_in earliest due].
    destruct (t2 + d2 <? t1 + d1) eqn:E3.
    + apply Z.ltb_lt in E3. cbn [due]. rewrite E2'.
      unfold fire_in at 2 3 4, later_of. cbn.
      repeat case_decide; try (exfalso; lia). cbn. rewrite E1'.
      unfold fire_in, later_of. cbn.
      repeat case_decide; try (exfalso; lia). cbn.
      rewrite (Z.max_r t2 (t2 + d2)) by lia.
      rewrite (Z.max_r (t2 + d2) (t1 + d1)) by lia. auto.
    + apply Z.ltb_ge in E3. cbn [due]. rewrite E1'.
      unfold fire_in at 2 3 4, later_of. cbn.
      repeat case_decide; try (exfalso; lia). cbn. rewrite E2'.
      unfold fire_in, later_of. cbn.
      repeat case_decide; try (exfalso; lia). cbn.
      rewrite (Z.max_r t2 (t1 + d1)) by lia.
      rewrite (Z.max_r (t1 + d1) (t2 + d2)) by lia. auto.
Qed.

(** *** A burst of calls of one debounced function *)

Lemma first_call_arms_in (k : nat) (t0 t : Z) (a : A) (st : St) :
  0 < waits k -> t0 <= t ->
  armed_in waits k (call_in funcs waits (t, (k, a)) (fresh_hosts t0 st)) t a st.
Proof.
  intros Hw Ht. exists 1.
  unfold call_in, executedFunction_of, advance_in, fresh_hosts. cbn.
  rewrite (Z.max_r t0 t), (Z.max_r 0 (waits k)) by lia.
  unfold set_timeout_of. rewrite Nat.eqb_refl. repeat split; auto; lia.
Qed.

Lemma next_call_rearms_in (k : nat) (h : Hosts A St) (t t' : Z) (a a' : A) (st : St) :
  0 < waits k ->
  armed_in waits k h t a st -> t <= t' < t + waits k ->
  armed_in waits k (call_in funcs waits (t', (k, a')) h) t' a' st.
Proof.
  intros Hw (id & Htm & Hto & Hid & Hnext & Hnow & Hinv & Htg) Ht'.
  assert (E : (t + waits k <=? t') = false) by (apply Z.leb_gt; lia).
  assert (Hid' : (id =? 0) = false) by (apply Z.eqb_neq; exact Hid).
  assert (Hadv : advance_in funcs t' h =
    mkHosts A St t' (htimers h) (hnext_id h) (htimeout h) (htarget h)
      (hinvocations h)).
  { unfold advance_in. rewrite Htm. cbn [length run_due_in]. rewrite Htm.
    cbn [earliest due]. rewrite E, Htm, Hnow. f_equal. lia. }
  exists (hnext_id h). unfold call_in, executedFunction_of. cbn [fst snd].
  rewrite Hadv. cbn [htimeout]. rewrite Hto. cbn [handle_truthy]. rewrite Hid'.
  cbn. rewrite Htm. cbn.
  rewrite decide_False by (intros Hne; apply Hne; reflexivity). cbn.
  rewrite (Z.max_r 0 (waits k)) by lia.
  unfold set_timeout_of. rewrite Nat.eqb_refl. repeat split; auto; lia.
Qed.

Lemma burst_rearms_in (k : nat) (cs : list (Z * A)) :
  0 < waits k ->
  forall (h : Hosts A St) (t : Z) (a : A) (st : St),
    armed_in waits k h t a st -> spaced (waits k) t cs ->
    armed_in waits k (run_calls_in funcs waits (through k cs) h)
      (List.last cs (t, a)).1 (List.last cs (t, a)).2 st.
Proof.
  intros Hw. induction cs as [|[t' a'] cs IH]; intros h t a st Harmed Hsp.
  - exact Harmed.
  - destruct Hsp as [Ht' Hsp]. cbn [fst] in Ht', Hsp.
    rewrite last_cons_default.
    change (run_calls_in funcs waits (through k ((t', a') :: cs)) h)
      with (run_calls_in funcs waits (through k cs)
              (call_in funcs waits (t', (k, a')) h)).
    apply IH; [|exact Hsp].
    apply (next_call_rearms_in k h t t' a a' st Hw Harmed Ht').
Qed.

Lemma armed_in_fires (k : nat) (h : Hosts A St) (t T : Z) (a : A) (st : St) :
  0 < waits k ->
  armed_in waits k h t a st -> t + waits k <= T ->
  hinvocations (advance_in funcs T h) = [(t + waits k, (k, a))] /\
  htarget (advance_in funcs T h) = funcs k a st /\
  htimers (advance_in funcs T h) = [].
Proof.
  intros Hw (id & Htm & Hto & Hid & Hnext & Hnow & Hinv & Htg) HT.
  assert (E : (t + waits k <=? T) = true) by (apply Z.leb_le; lia).
  unfold advance_in. rewrite Htm. cbn [length run_due_in]. rewrite Htm.
  cbn [earliest due]. rewrite E. unfold fire_in, later_of. rewrite Htm. cbn.
  rewrite decide_False by (intros Hne; apply Hne; reflexivity). cbn.
  rewrite Hnow, Hinv, Htg. cbn.
  rewrite (Z.max_r t) by lia. auto.
Qed.

(** A burst of calls of one debounced function, each less than its [wait]
    after the one before, leads to one invocation: of the last call, [wait]
    after it. *)
Lemma same_function_burst (k : nat) (t0 : Z) (st : St)
    (c : Z * A) (cs : list (Z * A)) (T : Z) :
  0 < waits k ->
  t0 <= c.1 -> spaced (waits k) c.1 cs ->
  (List.last cs c).1 + waits k <= T ->
  let h :=
    advance_in funcs T
      (run_calls_in funcs waits (through k (c :: cs)) (fresh_hosts t0 st)) in
  hinvocations h = [((List.last cs c).1 + waits k, (k, (List.last cs c).2))] /\
  htarget h = funcs k (List.last cs c).2 st /\
  htimers h = [].
Proof.
  intros Hw Ht0 Hsp HT h. subst h. destruct c as [t a]. cbn [fst] in Ht0, Hsp.
  change (run_calls_in funcs waits (through k ((t, a) :: cs)) (fresh_hosts t0 st))
    with (run_calls_in funcs waits (through k cs)
            (call_in funcs waits (t, (k, a)) (fresh_hosts t0 st))).
  apply armed_in_fires; [exact Hw| |exact HT].
  apply burst_rearms_in; [exact Hw| |exact Hsp].
  apply first_call_arms_in; assumption.
Qed.

End DebounceInstancesFacts.

(** ** The change handler across renders *)


(** C6. The claim fails on the code when the component renders between two
    changes.  A change ["y"] reaches the handler of one render at 0 ms and
    a change ["y ="] the handler of the next render at 100 ms.  Each
    handler has a [timeout] of its own, so the second call clears nothing:
    two timers are pending, and the update runs twice, at 300 ms with the
    first value and at 400 ms with the second. *)
Theorem change_handlers_of_two_renders_both_run :
  let props := fun _ : nat => Blocks.props_last in
  let h :=
    editor_changes (PM:=Blocks.editor) props
      [(0, (0%nat, Some "y")); (100, (1%nat, Some "y ="))]%string
      (fresh_hosts 0 (Blocks.world Blocks.block_last Blocks.cursor_at_end, [])) in
  map (fun t => (due t, timer_args t)) (htimers h) =
    [(300, (0%nat, Some "y")); (400, (1%nat, Some "y ="))]%string /\
  hinvocations h = [] /\
  hinvocations (advance_in (change_handlers props) 400 h) =
    [(300, (0%nat, Some "y")); (400, (1%nat, Some "y ="))]%string.
Proof. repeat split. Qed.

(** ** The further properties on sample inputs *)

Lemma key_dispatch_is_paragraph_insert_witness :
  exists pos,
    getPos Blocks.props_last = GetPosFn (Some pos) /\
    ((DownArrow = DownArrow /\
      content_size (ProseMirror:=Blocks.editor) Blocks.block_last <=
        pos + nodeSize (ProseMirror:=Blocks.editor) (node Blocks.props_last) /\
      [StepInsert (PNum 14) paragraph_create] =
        [StepInsert
           (PNum (pos + nodeSize (ProseMirror:=Blocks.editor) (node Blocks.props_last)))
           paragraph_create]) \/
     ((DownArrow = UpArrow \/ DownArrow = LeftArrow) /\ pos = 0 /\
      [StepInsert (PNum 14) paragraph_create] =
        [StepInsert (PNum 0) paragraph_create])).
Proof.
  apply (key_dispatch_is_paragraph_insert (PM:=Blocks.editor)
           Blocks.props_last DownArrow
           (Blocks.world Blocks.block_last Blocks.cursor_at_end)
           [StepInsert (PNum 14) paragraph_create]).
  right. right. left. reflexivity.
Defined.

Lemma arrow_key_without_position_witness :
  Forall (fun x => is_dispatch x = false /\ is_focus x = false)
    (effects_of
       (onKeyDown (PM:=Blocks.editor)
          (mkProps (Blocks.codeBlock (JStr "python") "x = 1") (GetPosFn None) false)
          DownArrow (Blocks.world Blocks.block_last Blocks.cursor_at_end))) /\
  effects_of
    (onKeyDown (PM:=Blocks.editor)
       (mkProps (Blocks.codeBlock (JStr "python") "x = 1") (GetPosFn None) false)
       DownArrow (Blocks.world Blocks.block_last Blocks.cursor_at_end)) =
  [PreventDefault; StopPropagation].
Proof.
  split; [|reflexivity].
  apply (arrow_key_without_position (PM:=Blocks.editor)
           (mkProps (Blocks.codeBlock (JStr "python") "x = 1") (GetPosFn None) false)
           (Blocks.world Blocks.block_last Blocks.cursor_at_end) DownArrow).
  right. reflexivity.
Defined.

Lemma updateContent_drops_while_updating_witness :
  updateContent (PM:=Blocks.editor) Blocks.props_last (Some "y = 2"%string)
    (state_of
       (updateContent (PM:=Blocks.editor) Blocks.props_last (Some "y"%string)
          (Blocks.world Blocks.block_last Blocks.cursor_at_end))) =
  (state_of
     (updateContent (PM:=Blocks.editor) Blocks.props_last (Some "y"%string)
        (Blocks.world Blocks.block_last Blocks.cursor_at_end)), [], Ok tt).
Proof.
  apply (updateContent_drops_while_updating (PM:=Blocks.editor)
           Blocks.props_last (Some "y"%string) (Some "y = 2"%string)
           (Blocks.world Blocks.block_last Blocks.cursor_at_end)).
  reflexivity.
Defined.

Lemma no_echo_after_update_witness :
  let p' := mkProps (Blocks.codeBlock (JStr "python") "y = 2") (GetPosFn (Some 7)) false in
  let w1 :=
    state_of
      (updateContent (PM:=Blocks.editor) Blocks.props_last (Some "y = 2"%string)
         (Blocks.world Blocks.block_last Blocks.cursor_at_end)) in
  syncFromNode (PM:=Blocks.editor) p' w1 = (w1, [], Ok tt).
Proof.
  intros p' w1.
  apply (no_echo_after_update (PM:=Blocks.editor) Blocks.props_last p'
           "y = 2" (Blocks.world Blocks.block_last Blocks.cursor_at_end)
           (Some 7) (Blocks.codeBlock (JStr "python") "x = 1")
           eq_refl eq_refl eq_refl eq_refl).
Defined.

Lemma debounce_trailing_edge_witness :
  let f := fun (a : string) (st : list string) => st ++ [a] in
  let cs := [(0, "a"); (100, "b"); (500, "c"); (800, "d")]%string in
  let h := advance f 1100 (run_calls f 300 cs (fresh_host 0 [])) in
  invocations h = [(400, "b"); (800, "c"); (1100, "d")]%string /\
  target h = ["b"; "c"; "d"]%string.
Proof.
  intros f cs h.
  destruct (debounce_trailing_edge f 300 0 [] cs 1100) as (Hinv & Htarget & _).
  - lia.
  - cbn. lia.
  - intros c [= <-]. vm_compute. discriminate.
  - split; [exact Hinv|exact Htarget].
Defined.


Lemma executedFunction_of_frame_witness :
  let waits := fun _ : nat => 300 in
  let h : Hosts string (list string) :=
    executedFunction_of waits 0%nat "a"%string (fresh_hosts 0 []) in
  let h' := executedFunction_of waits 1%nat "b"%string h in
  timers_of 0%nat h' = [mkTimer 1 300 (0%nat, "a"%string)] /\
  timers_of 1%nat h' = [mkTimer 2 300 (1%nat, "b"%string)].
Proof.
  intros waits h h'.
  assert (Hfresh : hosts_ok (fresh_hosts (A:=string) (St:=list string) 0 [])).
  { split; [cbn; lia|]. split; [constructor|]. split; [constructor|].
    intros j. reflexivity. }
  destruct (executedFunction_of_frame waits (fresh_hosts 0 []) 0%nat "a"%string Hfresh)
    as (Hok & Hown0 & _).
  destruct (executedFunction_of_frame waits h 1%nat "b"%string Hok)
    as (_ & Hown & _ & Hothers & _).
  split; [|exact Hown].
  destruct (Hothers 0%nat ltac:(discriminate)) as [Hkept _].
  exact (eq_trans Hkept Hown0).
Defined.

Lemma one_pending_per_function_witness :
  let funcs := fun (_ : nat) (a : string) (st : list string) => st ++ [a] in
  let waits := fun _ : nat => 300 in
  let h :=
    executedFunction_of waits 0%nat "b"%string
      (advance_in funcs 100
         (executedFunction_of waits 0%nat "a"%string (fresh_hosts 0 []))) in
  (length (timers_of 0%nat h) <= 1)%nat.
Proof.
  intros funcs waits h.
  apply (one_pending_per_function funcs waits h 0%nat).
  repeat constructor.
Defined.

Lemma two_functions_both_run_witness :
  let funcs := fun (_ : nat) (a : string) (st : list string) => st ++ [a] in
  let waits := fun _ : nat => 300 in
  hinvocations
    (advance_in funcs 1000
       (executedFunction_of waits 1%nat "b"%string
          (advance_in funcs 100
             (executedFunction_of waits 0%nat "a"%string
                (advance_in funcs 0 (fresh_hosts 0 [])))))) =
  [(300, (0%nat, "a"%string)); (400, (1%nat, "b"%string))].
Proof.
  intros funcs waits.
  destruct (two_functions_both_run funcs waits 0%nat 1%nat
              "a"%string "b"%string 0 0 100 1000 []
              ltac:(discriminate) ltac:(vm_compute; auto) ltac:(vm_compute; auto)
              ltac:(lia) ltac:(lia)
              ltac:(vm_compute; discriminate) ltac:(vm_compute; discriminate))
    as (_ & Hinv & _).
  exact Hinv.
Defined.
